(** * sql_schema_workbench: dialect renderer, safety gate, schema graph, discovery

    A shallow embedding of the core of [src/sql_schema_workbench.py].

    Text model.  A Python [str] is embedded as a [string]; the Python text
    primitives ([str.strip], [str.lower], [str.upper], the [re] word
    boundary, the IGNORECASE comparison) are given on the ASCII range, where
    they are table-free and are Python's own.  Outside that range Python
    consults the Unicode tables (white space such as U+00A0, letters such as
    U+00E9, case mappings such as that of U+017F), which are not embedded:
    a property that rests on one of these primitives is stated for text that
    [str.isascii] accepts, [ascii_text] below. *)

From Stdlib Require Import ZArith Ascii String DecimalString.
From stdpp Require Import base gmap strings list sorting.

Local Open Scope nat_scope.

(** ** Python text primitives *)

Definition nl : string := String "010" EmptyString.


Module Py.

Definition between (lo hi : nat) (c : ascii) : bool :=
  (lo <=? nat_of_ascii c) && (nat_of_ascii c <=? hi).

(** [str.isspace] on one character of ASCII text: TAB..CR, FS..US and
    SPACE. *)
Definition isspace (c : ascii) : bool :=
  between 9 13 c || between 28 32 c.

Definition isupper (c : ascii) : bool := between 65 90 c.
Definition islower (c : ascii) : bool := between 97 122 c.
Definition isdigit (c : ascii) : bool := between 48 57 c.

(** The class [\w] of [re] on ASCII text: alphanumerics and the
    underscore. *)
Definition isword (c : ascii) : bool :=
  isupper c || islower c || isdigit c || (nat_of_ascii c =? 95).

(** [str.lower] and [str.upper] on one character of ASCII text. *)
Definition lower_char (c : ascii) : ascii :=
  if isupper c then ascii_of_nat (nat_of_ascii c + 32) else c.
Definition upper_char (c : ascii) : ascii :=
  if islower c then ascii_of_nat (nat_of_ascii c - 32) else c.

Fixpoint map_chars (f : ascii → ascii) (s : string) : string :=
  match s with
  | EmptyString => EmptyString
  | String c r => String (f c) (map_chars f r)
  end.

Definition lower : string → string := map_chars lower_char.
Definition upper : string → string := map_chars upper_char.

(** [s.lstrip(chars)] / [s.rstrip(chars)], the character set as a predicate. *)
Fixpoint lstrip_by (p : ascii → bool) (s : string) : string :=
  match s with
  | EmptyString => EmptyString
  | String c r => if p c then lstrip_by p r else s
  end.

Fixpoint rstrip_by (p : ascii → bool) (s : string) : string :=
  match s with
  | EmptyString => EmptyString
  | String c r =>
      match rstrip_by p r with
      | EmptyString => if p c then EmptyString else String c EmptyString
      | r' => String c r'
      end
  end.

(** [s.strip()] *)
Definition strip (s : string) : string :=
  rstrip_by isspace (lstrip_by isspace s).

(** [s.rstrip(";")] *)
Definition rstrip_semi : string → string :=
  rstrip_by (λ c, Ascii.eqb c ";").

(** [s.startswith(p)] *)
Definition startswith (s p : string) : bool := String.prefix p s.

(** [sub in s] *)
Fixpoint contains (sub s : string) : bool :=
  String.prefix sub s ||
  match s with
  | EmptyString => false
  | String _ r => contains sub r
  end.

(** Truth value of a string: non-empty. *)
Definition truthy (s : string) : bool :=
  match s with EmptyString => false | _ => true end.

(** [str(n)] for a non-negative and for a signed integer. *)
Definition str_nat (n : nat) : string :=
  NilZero.string_of_uint (Nat.to_uint n).
Definition str_int (z : Z) : string :=
  NilZero.string_of_int (Z.to_int z).

(** [sep.join(l)] *)
Fixpoint join (sep : string) (l : list string) : string :=
  match l with
  | [] => EmptyString
  | [x] => x
  | x :: r => x +:+ sep +:+ join sep r
  end.

End Py.

(** ** The two regular expressions of [strip_sql_comments] and the word search

    [re.sub] replaces the leftmost non-overlapping matches, scanning left to
    right; both patterns start with a fixed two-character opener and are lazy,
    so a match is decided at its opener. *)

Module Re.

(** [re.sub(r'--.*?$', '', s, flags=re.MULTILINE)]: from [--] up to, not
    including, the next line feed ([.] does not match a line feed, [$]
    matches before one and at the end of the text). *)
Fixpoint sub_line_comments (in_comment : bool) (s : string) : string :=
  match s with
  | EmptyString => EmptyString
  | String c r =>
      if in_comment then
        if Ascii.eqb c "010" then String c (sub_line_comments false r)
        else sub_line_comments true r
      else
        match r with
        | String c' r' =>
            if Ascii.eqb c "-" && Ascii.eqb c' "-"
            then sub_line_comments true r'
            else String c (sub_line_comments false r)
        | EmptyString => String c EmptyString
        end
  end.

(** Offset of the first occurrence of [sub] in [s]. *)
Fixpoint find (sub s : string) : option nat :=
  if String.prefix sub s then Some 0
  else match s with
       | EmptyString => None
       | String _ r => S <$> find sub r
       end.

(** [re.sub(r'/\*.*?\*/', '', s, flags=re.DOTALL)]: from an opener to the
    first closer after it; an opener without a closer is ordinary text.
    [skip] counts the characters of the current match still to be dropped. *)
Fixpoint sub_block_comments (skip : nat) (s : string) : string :=
  match s with
  | EmptyString => EmptyString
  | String c r =>
      match skip with
      | S k => sub_block_comments k r
      | O =>
          match r with
          | String c' r' =>
              if Ascii.eqb c "/" && Ascii.eqb c' "*" then
                match find "*/" r' with
                | Some n => sub_block_comments (n + 3) r
                | None => String c (sub_block_comments 0 r)
                end
              else String c (sub_block_comments 0 r)
          | EmptyString => String c EmptyString
          end
      end
  end.

(** [\b]: the characters on the two sides differ in being word characters;
    the ends of the text count as non-word. *)
Definition is_w (o : option ascii) : bool :=
  match o with Some c => Py.isword c | None => false end.
Definition boundary (prev next : option ascii) : bool :=
  xorb (is_w prev) (is_w next).

Definition head (s : string) : option ascii :=
  match s with EmptyString => None | String c _ => Some c end.

(** IGNORECASE comparison of a pattern character with a text character,
    on ASCII text. *)
Definition ci_eq (a b : ascii) : bool :=
  Ascii.eqb (Py.lower_char a) (Py.lower_char b).

(** Match the literal [word] at the start of [s]; returns the last
    character consumed and the rest of the text. *)
Fixpoint literal_ci (word s : string) (prev : option ascii)
  : option (option ascii * string) :=
  match word with
  | EmptyString => Some (prev, s)
  | String w word' =>
      match s with
      | String c s' => if ci_eq w c then literal_ci word' s' (Some c) else None
      | EmptyString => None
      end
  end.

(** [\bword\b] anchored at the current position, [prev] the character
    before it. *)
Definition word_here (word : string) (prev : option ascii) (s : string) : bool :=
  boundary prev (head s) &&
  match literal_ci word s prev with
  | Some (last, rest) => boundary last (head rest)
  | None => false
  end.

Fixpoint search_word_from (word : string) (prev : option ascii) (s : string) : bool :=
  word_here word prev s ||
  match s with
  | EmptyString => false
  | String c r => search_word_from word (Some c) r
  end.

(** [re.search(rf'\b{word}\b', s, re.IGNORECASE)] as a truth value. *)
Definition search_word (word s : string) : bool :=
  search_word_from word None s.

End Re.

(** ** Dialect renderer *)

Inductive SQLDialect := SQLITE | POSTGRES | SQLSERVER | MYSQL.

Global Instance SQLDialect_eq_dec : EqDecision SQLDialect.
Proof. solve_decision. Defined.

Definition dquote : string := String "034" EmptyString.

(** [q(name, d)] *)
Definition q (name : string) (d : SQLDialect) : string :=
  if decide (d = SQLSERVER) then "[" +:+ name +:+ "]"
  else if decide (d = MYSQL) then "`" +:+ name +:+ "`"
  else dquote +:+ name +:+ dquote.

(** [render_select(d, limit)]; [limit] is [None] when the argument is left
    out, and a limit of zero is as false as [None]. *)
Definition render_select (d : SQLDialect) (limit : option Z) : string :=
  match limit with
  | Some n =>
      if bool_decide (d = SQLSERVER) && negb (n =? 0)%Z
      then "SELECT TOP " +:+ Py.str_int n
      else "SELECT"
  | None => "SELECT"
  end.

(** [render_limit(d, limit)] *)
Definition render_limit (d : SQLDialect) (limit : Z) : string :=
  if decide (d = SQLSERVER) then EmptyString
  else "LIMIT " +:+ Py.str_int limit.

(** ** Safety gate *)

(** [strip_sql_comments] *)
Definition strip_sql_comments (sql : string) : string :=
  let sql := Re.sub_line_comments false sql in
  let sql := Re.sub_block_comments 0 sql in
  Py.strip sql.

Definition dangerous : list string :=
  ["INSERT"; "UPDATE"; "DELETE"; "DROP"; "ALTER"; "TRUNCATE";
   "CREATE"; "REPLACE"; "ATTACH"; "DETACH"; "PRAGMA"].

(** [contains_dangerous_sql]: the first denylist word found, in denylist order. *)
Definition contains_dangerous_sql (sql : string) : option string :=
  List.find (λ word, Re.search_word word sql) dangerous.

(** ** Schema model and join-path search *)

(** A join step [(left_table, right_table, left_column, right_column)]. *)
Definition JoinStep : Type := string * string * string * string.
Definition JoinPlan : Type := list JoinStep.

Record DatabaseSchema := {
  tables : list string;
  columns : gmap string (list string);
  relationships : gmap string (list (string * string * string));
}.

(** [sorted] on strings (code-point order). *)
Fixpoint insert_sorted (x : string) (l : list string) : list string :=
  match l with
  | [] => [x]
  | y :: r => if String.leb x y then x :: l else y :: insert_sorted x r
  end.
Definition sorted (l : list string) : list string := foldr insert_sorted [] l.

Definition get_tables (self : DatabaseSchema) : list string :=
  sorted (tables self).

Definition get_columns (self : DatabaseSchema) (table : string) : list string :=
  default [] (columns self !! table).

(** The three loop variables of [find_join_path]. *)
Record Bfs := {
  targets : gset string;
  queue : list (string * JoinPlan);
  visited : gset string;
}.

(** One pass through the body of [while queue]: the function returns, or the
    loop goes round again. *)
Inductive Outcome :=
| Return (r : option JoinPlan)
| Again (st : Bfs).

(** [for ref_table, local_col, ref_col in self.relationships.get(current, [])] *)
Definition forward_edges (self : DatabaseSchema) (current : string)
    (path : JoinPlan) (vis : gset string) : list (string * JoinPlan) :=
  flat_map
    (λ '(ref_table, local_col, ref_col),
       if decide (ref_table ∉ vis)
       then [(ref_table, path ++ [(current, ref_table, local_col, ref_col)])]
       else [])
    (default [] (relationships self !! current)).

(** [for table in self.tables] with its inner loop over the table's own
    relationships. *)
Definition reverse_edges (self : DatabaseSchema) (current : string)
    (path : JoinPlan) (vis : gset string) : list (string * JoinPlan) :=
  flat_map
    (λ table,
       if decide (table ∉ vis) then
         flat_map
           (λ '(ref_table, local_col, ref_col),
              if decide (ref_table = current)
              then [(table, path ++ [(current, table, ref_col, local_col)])]
              else [])
           (default [] (relationships self !! table))
       else [])
    (tables self).

(** From [if current in visited] to the end of the loop body. *)
Definition expand (self : DatabaseSchema) (tg : gset string)
    (qu : list (string * JoinPlan)) (vis : gset string)
    (current : string) (path : JoinPlan) : Outcome :=
  if decide (current ∈ vis) then
    Again {| targets := tg; queue := qu; visited := vis |}
  else
    let vis := {[current]} ∪ vis in
    Again {| targets := tg;
             queue := qu ++ forward_edges self current path vis
                         ++ reverse_edges self current path vis;
             visited := vis |}.

Definition bfs_iter (self : DatabaseSchema) (st : Bfs) : Outcome :=
  match queue st with
  | [] => Return None
  | (current, path) :: rest =>
      if decide (current ∈ targets st) then
        let tg := targets st ∖ {[current]} in
        if decide (tg = ∅) then Return (Some path)
        else expand self tg [(current, path)] ∅ current path
      else expand self (targets st) rest (visited st) current path
  end.

(** The loop, cut off after [fuel] passes: [None] when the fuel ran out,
    [Some r] when the function returned [r]. *)
Fixpoint bfs_loop (fuel : nat) (self : DatabaseSchema) (st : Bfs)
  : option (option JoinPlan) :=
  match fuel with
  | O => None
  | S n =>
      match bfs_iter self st with
      | Return r => Some r
      | Again st' => bfs_loop n self st'
      end
  end.

Definition bfs_init (start : string) (rest : list string) : Bfs :=
  {| targets := list_to_set rest; queue := [(start, [])]; visited := ∅ |}.

(** [DatabaseSchema.find_join_path] *)
Definition find_join_path (fuel : nat) (self : DatabaseSchema)
    (tabs : list string) : option (option JoinPlan) :=
  match tabs with
  | start :: (_ :: _) as rest => bfs_loop fuel self (bfs_init start rest)
  | _ => Some None
  end.

(** A [pandas.DataFrame] as far as the gate looks at it. *)
Record DataFrame := {
  df_columns : list string;
  df_rows : list (list string);
}.

(** [df.empty]: some axis has length zero. *)
Definition df_empty (df : DataFrame) : bool :=
  (length (df_columns df) =? 0) || (length (df_rows df) =? 0).

Record SandboxResult := {
  status : string;
  df : option DataFrame;
  message : string;
}.

(** A raised exception, with its [str(e)]. *)
Record Exn := { exn_msg : string }.

(** What a live connection answers: [pd.read_sql_query(sql, conn)] and
    [conn.execute(sql)] either raise or deliver a table. *)
Record Connection := {
  read_sql_query : string → Exn + DataFrame;
  execute : string → Exn + list (list string);
}.

Definition hint_marker : string := "ðŸ’¡".


Definition mk_result (st : string) (d : option DataFrame) (msg : string)
  : SandboxResult := {| status := st; df := d; message := msg |}.

(** ** Engine abstraction *)

Record DatabaseEngine := {
  conn : option Connection;
  dialect : SQLDialect;
  name : string;
  _schema_cache : option DatabaseSchema;
}.

(** The hint appended to a backend error message. *)
Definition annotate (msg : string) : string :=
  if Py.contains "no such function" (Py.lower msg) then
    msg +:+ nl +:+ nl +:+ hint_marker +:+ " This looks like SQL from another dialect."
  else if Py.contains "syntax error" (Py.lower msg) then
    msg +:+ nl +:+ nl +:+ hint_marker +:+ " Check commas, joins, or keyword order."
  else if Py.contains "no such table" (Py.lower msg) then
    msg +:+ nl +:+ nl +:+ hint_marker +:+ " Table not found. Check spelling and refresh schema."
  else msg.

(** [DatabaseEngine.execute_select].  The second component lists the
    statements handed to the backend during the call. *)
Definition execute_select (self : DatabaseEngine) (sql : string)
  : SandboxResult * list string :=
  match conn self with
  | None => (mk_result "error" None "Not connected to database", [])
  | Some c =>
      if negb (Py.truthy (Py.strip sql)) then
        (mk_result "warning" None "No SQL provided.", [])
      else
        let cleaned := strip_sql_comments sql in
        if Py.contains ";" (Py.rstrip_semi cleaned) then
          (mk_result "warning" None
             "Multiple SQL statements detected. Only single SELECT statements are allowed.", [])
        else
          let found := contains_dangerous_sql cleaned in
          if from_option Py.truthy false found then
            (mk_result "warning" None
               ("This query contains `" +:+ default EmptyString found +:+
                "`. Execution is blocked to prevent data changes."), [])
          else if negb (Py.startswith (Py.strip (Py.upper cleaned)) "SELECT") then
            (mk_result "warning" None "Only SELECT queries are allowed.", [])
          else
            match read_sql_query c cleaned with
            | inr d =>
                if df_empty d then
                  (mk_result "success" (Some d)
                     "Query ran successfully but returned no rows.", [cleaned])
                else
                  (mk_result "success" (Some d)
                     ("Query executed successfully. Returned " +:+
                      Py.str_nat (length (df_rows d)) +:+ " row(s)."), [cleaned])
            | inl e => (mk_result "error" None (annotate (exn_msg e)), [cleaned])
            end
  end.

(** *** SQLite introspection *)

Definition empty_schema : DatabaseSchema :=
  {| tables := []; columns := ∅; relationships := ∅ |}.

(** [r[i]] on a result row; an index out of range raises. *)
Definition row_get (r : list string) (i : nat) : Exn + string :=
  match r !! i with
  | Some v => inr v
  | None => inl {| exn_msg := "tuple index out of range" |}
  end.

(** [[f(r) for r in rows]] where [f] may raise. *)
Fixpoint comprehension {A B} (f : A → Exn + B) (l : list A) : Exn + list B :=
  match l with
  | [] => inr []
  | x :: r =>
      match f x with
      | inl e => inl e
      | inr y =>
          match comprehension f r with
          | inl e => inl e
          | inr ys => inr (y :: ys)
          end
      end
  end.

(** [try: body  except: handler] *)
Definition try_except {A} (body : Exn + A) (handler : A) : A :=
  match body with inr a => a | inl _ => handler end.

Definition master_query : string :=
  "SELECT name FROM sqlite_master WHERE type='table' AND name NOT LIKE 'sqlite_%'".

Definition table_info_query (t : string) : string :=
  "PRAGMA table_info(" +:+ dquote +:+ t +:+ dquote +:+ ")".

Definition foreign_key_query (t : string) : string :=
  "PRAGMA foreign_key_list(" +:+ dquote +:+ t +:+ dquote +:+ ")".

(** The first [for t in tables] loop: a failed read leaves the table with
    an empty column list. *)
Definition table_columns (c : Connection) (t : string) : list string :=
  try_except
    (match execute c (table_info_query t) with
     | inl e => inl e
     | inr rows => comprehension (λ r, row_get r 1) rows
     end)
    [].

Definition read_columns (c : Connection) (tabs : list string)
  : gmap string (list string) :=
  foldl (λ cols t, <[t := table_columns c t]> cols) ∅ tabs.

(** [relationships[t].append((r[2], r[3], r[4]))] on the default
    dictionary: the entry for [t] comes into being when it is looked up,
    before the row is indexed. *)
Fixpoint append_foreign_keys (t : string) (rows : list (list string))
    (rel : gmap string (list (string * string * string)))
  : gmap string (list (string * string * string)) :=
  match rows with
  | [] => rel
  | r :: rest =>
      let cur := default [] (rel !! t) in
      let rel := <[t := cur]> rel in
      match row_get r 2, row_get r 3, row_get r 4 with
      | inr a, inr b, inr d => append_foreign_keys t rest (<[t := cur ++ [(a, b, d)]]> rel)
      | _, _, _ => rel
      end
  end.

(** The second [for t in tables] loop: a failed read skips the table. *)
Definition read_relationships (c : Connection) (tabs : list string)
  : gmap string (list (string * string * string)) :=
  foldl
    (λ rel t,
       match execute c (foreign_key_query t) with
       | inl _ => rel
       | inr rows => append_foreign_keys t rows rel
       end)
    ∅ tabs.

(** [SQLiteEngine.get_schema]: the schema returned and the engine after
    the call. *)
Definition get_schema (self : DatabaseEngine) : DatabaseSchema * DatabaseEngine :=
  match _schema_cache self with
  | Some cached => (cached, self)
  | None =>
      match conn self with
      | None => (empty_schema, self)
      | Some c =>
          try_except
            (match execute c master_query with
             | inl e => inl e
             | inr rows =>
                 match comprehension (λ r, row_get r 0) rows with
                 | inl e => inl e
                 | inr tabs =>
                     let schema :=
                       {| tables := tabs;
                          columns := read_columns c tabs;
                          relationships := read_relationships c tabs |} in
                     inr (schema,
                          {| conn := conn self; dialect := dialect self;
                             name := name self; _schema_cache := Some schema |})
                 end
             end)
            (empty_schema, self)
      end
  end.

(** ** Term discovery and query drafting *)

Definition tick_marker : string := "âœ“".

Definition custom_synonyms : gmap string (list string) :=
  list_to_map
    [("sold", ["orders"; "orderdetails"; "quantity"; "sales"]);
     ("sales", ["orders"; "orderdetails"; "unitprice"; "quantity"]);
     ("revenue", ["unitprice"; "quantity"; "discount"; "orders"]);
     ("bought", ["orders"; "orderdetails"]);
     ("purchased", ["orders"; "orderdetails"]);
     ("income", ["unitprice"; "orders"]);
     ("amount", ["quantity"; "unitprice"]);
     ("buyer", ["customers"; "customerid"]);
     ("customer", ["customers"; "customerid"]);
     ("worker", ["employees"; "employeeid"]);
     ("employee", ["employees"; "employeeid"]);
     ("staff", ["employees"; "employeeid"]);
     ("item", ["products"; "productid"]);
     ("product", ["products"; "productid"]);
     ("goods", ["products"; "productid"]);
     ("supplier", ["suppliers"; "supplierid"]);
     ("vendor", ["suppliers"; "supplierid"]);
     ("shipper", ["shippers"; "shipperid"]);
     ("carrier", ["shippers"; "shipperid"]);
     ("category", ["categories"; "categoryid"]);
     ("type", ["categories"; "categoryid"]);
     ("discontinued", ["discontinued"]);
     ("freight", ["freight"]);
     ("shipping", ["freight"; "shippers"])].

(** [name.split(".", 1)] when [name] has a dot: the text before and after
    the first one. *)
Fixpoint split_dot (s : string) : option (string * string) :=
  match s with
  | EmptyString => None
  | String c r =>
      if Ascii.eqb c "." then Some (EmptyString, r)
      else match split_dot r with
           | Some (a, b) => Some (String c a, b)
           | None => None
           end
  end.

(** The test both matching loops apply to one entry of the search space:
    a dotted name is tested on its column part, a bare name as a whole. *)
Definition hit (needle name : string) : bool :=
  match split_dot name with
  | Some (_, column) => Py.contains needle (Py.lower column)
  | None => Py.contains needle (Py.lower name)
  end.

(** The search space: each table, followed by its columns as [table.column]. *)
Definition search_space (schema : DatabaseSchema) : list string :=
  flat_map
    (λ table, table :: map (λ column, table +:+ "." +:+ column)
                           (get_columns schema table))
    (get_tables schema).

Definition backquoted (s : string) : string := "`" +:+ s +:+ "`".

(** One [for name in search_space] loop, adding to [matches] and [explanations]. *)
Definition match_loop (needle : string) (label : string → string)
    (space : list string) (acc : gset string * list string)
  : gset string * list string :=
  foldl
    (λ '(matches, explanations) name,
       if hit needle name
       then ({[name]} ∪ matches, explanations ++ [label name])
       else (matches, explanations))
    acc space.

Section Discovery.

(** [difflib.get_close_matches(word, possibilities, n=3, cutoff=0.6)], a
    function of the Python standard library. *)
Variable get_close_matches : string → list string → list string.

(** [discover_term], a closure over the schema. *)
Definition discover_term (schema : DatabaseSchema) (term : string)
  : gset string * list string :=
  let term_lower := Py.lower term in
  let space := search_space schema in
  let acc :=
    match_loop term_lower
      (λ name, tick_marker +:+ " Direct match: " +:+ backquoted name)
      space (∅, []) in
  let acc :=
    match custom_synonyms !! term_lower with
    | Some synonyms =>
        if decide (acc.1 = ∅) then
          foldl
            (λ acc synonym,
               match_loop (Py.lower synonym)
                 (λ name, "Synonym '" +:+ synonym +:+ "' matched: " +:+ backquoted name)
                 space acc)
            acc synonyms
        else acc
    | None => acc
    end in
  if decide (acc.1 = ∅) then
    let candidates := map Py.lower space in
    let suggestions := get_close_matches term_lower candidates in
    match suggestions with
    | [] => acc
    | _ => (acc.1, acc.2 ++ ["Possible matches: " +:+
                              Py.join ", " (map backquoted suggestions)])
    end
  else acc.

End Discovery.

(** The draft of step 3, from the target tables, the join path found for
    them ([None] for fewer than two tables) and the discovered columns per
    table, in the order the sets are iterated. *)
Definition sql_preview (d : SQLDialect) (tables_to_join : list string)
    (join_path : option JoinPlan) (discovered : list (string * list string))
  : string :=
  match tables_to_join with
  | [t] =>
      render_select d None +:+ nl +:+ "  *" +:+ nl +:+ "FROM " +:+ q t d +:+ nl +:+
      render_limit d 10
  | _ =>
      match join_path with
      | Some (step :: steps) =>
          let select_parts :=
            flat_map (λ '(t, cols), map (λ c, q t d +:+ "." +:+ q c d) cols)
                     discovered in
          let select_parts :=
            match select_parts with [] => ["*"] | _ => select_parts end in
          render_select d (if decide (d = SQLSERVER) then Some 10%Z else None)
          +:+ nl +:+ "  "
          +:+ Py.join ("," +:+ nl +:+ "  ") select_parts
          +:+ nl +:+ "FROM " +:+ q (default EmptyString (head tables_to_join)) d +:+ nl
          +:+ foldr
                (λ '(left_tab, right_tab, left_col, right_col) rest,
                   "JOIN " +:+ q right_tab d +:+ " ON " +:+
                   q left_tab d +:+ "." +:+ q left_col d +:+ " = " +:+
                   q right_tab d +:+ "." +:+ q right_col d +:+ nl +:+ rest)
                EmptyString (step :: steps)
          +:+ render_limit d 10
      | _ =>
          "-- Unable to determine relationships" +:+ nl +:+ "-- Tables: " +:+
          Py.join ", " tables_to_join
      end
  end.

(** ** Notions used to state the properties *)

Fixpoint all_chars (p : ascii → bool) (s : string) : bool :=
  match s with
  | EmptyString => true
  | String c r => p c && all_chars p r
  end.

Fixpoint last_char (s : string) : option ascii :=
  match s with
  | EmptyString => None
  | String c r => match last_char r with Some x => Some x | None => Some c end
  end.

(** [w] stands in [text] as a whole word, in any letter case: a stretch of
    [text] spells [w] up to case and has no word character on either side. *)
Definition occurs_as_word (w text : string) : Prop :=
  ∃ pre mid post,
    text = pre +:+ mid +:+ post ∧
    Py.lower mid = Py.lower w ∧
    Re.is_w (last_char pre) = false ∧
    Re.is_w (Re.head post) = false.

(** Every character, for properties checked character by character. *)
Definition all_ascii : list ascii := map ascii_of_nat (seq 0 256).

(** Text of ASCII characters only, [str.isascii]: the text on which the
    primitives of [Py] and [Re] are those of Python. *)
Definition ascii_text (s : string) : bool :=
  all_chars (λ c, nat_of_ascii c <? 128) s.

(** A word of capital letters, as every entry of the denylist is. *)
Definition capital_word (w : string) : bool :=
  Py.truthy w && all_chars Py.isupper w.

(** The relationship entries of a table, [relationships.get(t, [])]. *)
Definition rels (self : DatabaseSchema) (t : string)
  : list (string * string * string) :=
  default [] (relationships self !! t).

(** A join step that follows a relationship of the model, in either direction. *)
Definition real_edge (self : DatabaseSchema) (step : JoinStep) : Prop :=
  let '(left_table, right_table, left_column, right_column) := step in
  (right_table, left_column, right_column) ∈ rels self left_table ∨
  (left_table, right_column, left_column) ∈ rels self right_table.

(** Two tables joined by a relationship, whichever of them holds it. *)
Definition adjacent (self : DatabaseSchema) (a b : string) : Prop :=
  (∃ lc rc, (b, lc, rc) ∈ rels self a) ∨ (∃ lc rc, (a, lc, rc) ∈ rels self b).

(** Connected through relationships, ignoring their direction. *)
Definition connected (self : DatabaseSchema) : relation string :=
  rtc (adjacent self).

(** Every table name the search can meet lies in [U]. *)
Definition covers (self : DatabaseSchema) (U : gset string) : Prop :=
  (∀ t, t ∈ tables self → t ∈ U) ∧
  (∀ k r lc rc, (r, lc, rc) ∈ rels self k → r ∈ U).


(** The names the loops of [discover_term] add for one needle. *)
Definition hits (schema : DatabaseSchema) (needle : string) : list string :=
  filter (λ name, hit needle name = true) (search_space schema).

(** Stage one and stage two of the discovery, as sets of names. *)
Definition direct_hits (schema : DatabaseSchema) (term : string) : list string :=
  hits schema (Py.lower term).

Definition synonym_hits (schema : DatabaseSchema) (term : string) : list string :=
  flat_map (λ synonym, hits schema (Py.lower synonym))
           (default [] (custom_synonyms !! Py.lower term)).





(** [(n, p)] is what the loop body appends for the entry [(cur, path)]: a
    relationship of [cur] followed forwards, or a relationship of a listed
    table [n] that refers to [cur], followed backwards. *)
Definition extends_by (self : DatabaseSchema) (cur : string) (path : JoinPlan)
    (n : string) (p : JoinPlan) : Prop :=
  (∃ lc rc, (n, lc, rc) ∈ rels self cur ∧ p = path ++ [(cur, n, lc, rc)]) ∨
  (n ∈ tables self ∧
   ∃ lc rc, (cur, lc, rc) ∈ rels self n ∧ p = path ++ [(cur, n, rc, lc)]).

(** All table names of a model: the listed tables and every table referred to. *)
Definition universe (self : DatabaseSchema) : gset string :=
  list_to_set (tables self) ∪
  list_to_set
    (flat_map (λ kl : string * list (string * string * string),
                 map (λ e, e.1.1) kl.2)
              (map_to_list (relationships self))).

(** ** Sample data *)

Definition orders_customers : DatabaseSchema :=
  {| tables := ["Orders"; "Customers"];
     columns := ∅;
     relationships :=
       {[ "Orders" := [("Customers", "CustomerID", "CustomerID")] ]} |}.

(** Two tables without any relationship. *)
Definition islands : DatabaseSchema :=
  {| tables := ["A"; "B"]; columns := ∅; relationships := ∅ |}.

(** Three tables referring to each other in a ring. *)
Definition ring : DatabaseSchema :=
  {| tables := ["A"; "B"; "C"];
     columns := ∅;
     relationships :=
       {[ "A" := [("B", "b_id", "id")];
          "B" := [("C", "c_id", "id")];
          "C" := [("A", "a_id", "id")] ]} |}.


Definition sales_schema : DatabaseSchema :=
  {| tables := ["Orders"; "OrderDetails"];
     columns := {[ "Orders" := ["OrderID"];
                   "OrderDetails" := ["OrderID"; "Quantity"] ]};
     relationships :=
       {[ "OrderDetails" := [("Orders", "OrderID", "OrderID")] ]} |}.

Definition one_row : DataFrame :=
  {| df_columns := ["1"]; df_rows := [["1"]] |}.

(** A backend that answers every statement with a one-row table. *)
Definition answering : Connection :=
  {| read_sql_query := λ _, inr one_row;
     execute := λ _, inr [] |}.

(** A backend that raises on every statement. *)
Definition raising : Connection :=
  {| read_sql_query := λ _, inl {| exn_msg := "database is locked" |};
     execute := λ _, inl {| exn_msg := "database is locked" |} |}.

(** A backend that lists one table and raises on each PRAGMA. *)
Definition pragma_denied : Connection :=
  {| read_sql_query := λ _, inl {| exn_msg := "not authorized" |};
     execute := λ sql,
       if String.eqb sql master_query then inr [["t"]]
       else inl {| exn_msg := "not authorized" |} |}.

Definition engine_on (c : option Connection) : DatabaseEngine :=
  {| conn := c; dialect := SQLITE; name := "SQLite"; _schema_cache := None |}.

(** ** Further code of the workbench *)

(** [DatabaseEngine.refresh_schema], on the SQLite engine. *)
Definition refresh_schema (self : DatabaseEngine) : DatabaseSchema * DatabaseEngine :=
  get_schema {| conn := conn self; dialect := dialect self; name := name self;
                _schema_cache := None |}.

(** [DatabaseEngine.test_connection] *)
Definition test_connection (self : DatabaseEngine) : bool * string :=
  match conn self with
  | None => (false, "No active connection")
  | Some _ =>
      try_except
        (inr (let result := (execute_select self "SELECT 1").1 in
              if String.eqb (status result) "success"
              then (true, "Connection Verified")
              else (false, "Connection Test Failed")))
        (false, "Connection Lost")
  end.

(** [DatabaseEngine.disconnect]; [close] is what [self.conn.close()] does,
    and whatever it raises is dropped. *)
Definition disconnect (close : Connection → Exn + unit) (self : DatabaseEngine)
  : DatabaseEngine :=
  let self :=
    match conn self with
    | Some c =>
        let _ := try_except (close c) () in
        {| conn := None; dialect := dialect self; name := name self;
           _schema_cache := _schema_cache self |}
    | None => self
    end in
  {| conn := conn self; dialect := dialect self; name := name self;
     _schema_cache := None |}.

(** *** Introspection of the network engines

    PostgreSQL, MySQL and SQL Server read the catalog through one cursor,
    with the table name as the parameter of the per-table queries, and have
    no [try] of their own around a single read. *)

Record Cursor := {
  cur_execute : string → list string → Exn + list (list string);
  cur_close : Exn + unit;
}.

Record NetConnection := { cursor : Exn + Cursor }.

Record NetworkEngine := {
  net_conn : option NetConnection;
  net_dialect : SQLDialect;
  net_name : string;
  net_schema_cache : option DatabaseSchema;
}.

Record CatalogQueries := {
  tables_sql : string;
  columns_sql : string;
  foreign_keys_sql : string;
}.

Definition postgres_queries : CatalogQueries :=
  {| tables_sql :=
       "SELECT table_name FROM information_schema.tables WHERE table_schema = 'public'";
     columns_sql :=
       "SELECT column_name FROM information_schema.columns "
       +:+ nl +:+ "                            WHERE table_name = %s AND table_schema = 'public' "
       +:+ nl +:+ "                            ORDER BY ordinal_position";
     foreign_keys_sql :=
       "SELECT kcu.column_name, ccu.table_name AS foreign_table_name,"
       +:+ nl +:+ "                            ccu.column_name AS foreign_column_name"
       +:+ nl +:+ "                            FROM information_schema.key_column_usage AS kcu"
       +:+ nl +:+ "                            JOIN information_schema.constraint_column_usage AS ccu"
       +:+ nl +:+ "                            ON kcu.constraint_name = ccu.constraint_name"
       +:+ nl +:+ "                            WHERE kcu.table_name = %s AND kcu.table_schema = 'public'"
       +:+ nl +:+ "                            AND kcu.constraint_name IN (SELECT constraint_name "
       +:+ nl +:+ "                            FROM information_schema.table_constraints "
       +:+ nl +:+ "                            WHERE constraint_type = 'FOREIGN KEY')" |}.

Definition mysql_queries : CatalogQueries :=
  {| tables_sql :=
       "SELECT table_name FROM information_schema.tables WHERE table_schema = DATABASE()";
     columns_sql :=
       "SELECT column_name FROM information_schema.columns "
       +:+ nl +:+ "                            WHERE table_name = %s AND table_schema = DATABASE() "
       +:+ nl +:+ "                            ORDER BY ordinal_position";
     foreign_keys_sql :=
       "SELECT kcu.column_name, kcu.referenced_table_name,"
       +:+ nl +:+ "                            kcu.referenced_column_name"
       +:+ nl +:+ "                            FROM information_schema.key_column_usage AS kcu"
       +:+ nl +:+ "                            WHERE kcu.table_name = %s AND kcu.table_schema = DATABASE()"
       +:+ nl +:+ "                            AND kcu.referenced_table_name IS NOT NULL" |}.

Definition sqlserver_queries : CatalogQueries :=
  {| tables_sql :=
       "SELECT table_name FROM information_schema.tables WHERE table_type = 'BASE TABLE'";
     columns_sql :=
       "SELECT column_name FROM information_schema.columns "
       +:+ nl +:+ "                            WHERE table_name = ? ORDER BY ordinal_position";
     foreign_keys_sql :=
       "SELECT COL_NAME(fc.parent_object_id, fc.parent_column_id) AS column_name,"
       +:+ nl +:+ "                            OBJECT_NAME(fc.referenced_object_id) AS referenced_table,"
       +:+ nl +:+ "                            COL_NAME(fc.referenced_object_id, fc.referenced_column_id) AS referenced_column"
       +:+ nl +:+ "                            FROM sys.foreign_key_columns AS fc"
       +:+ nl +:+ "                            WHERE OBJECT_NAME(fc.parent_object_id) = ?" |}.

(** Sequencing of steps that may raise. *)
Definition and_then {A B} (m : Exn + A) (f : A → Exn + B) : Exn + B :=
  match m with inl e => inl e | inr a => f a end.

(** [for t in tables: cur.execute(..., (t,)); columns[t] = [r[0] for r in cur.fetchall()]] *)
Fixpoint net_read_columns (cur : Cursor) (sql : string) (tabs : list string)
    (cols : gmap string (list string)) : Exn + gmap string (list string) :=
  match tabs with
  | [] => inr cols
  | t :: rest =>
      and_then (cur_execute cur sql [t]) (λ rows,
      and_then (comprehension (λ r, row_get r 0) rows) (λ names,
      net_read_columns cur sql rest (<[t := names]> cols)))
  end.

(** [for r in cur.fetchall(): relationships[t].append((r[1], r[0], r[2]))] *)
Fixpoint net_append_foreign_keys (t : string) (rows : list (list string))
    (rel : gmap string (list (string * string * string)))
  : Exn + gmap string (list (string * string * string)) :=
  match rows with
  | [] => inr rel
  | r :: rest =>
      let held := default [] (rel !! t) in
      and_then (row_get r 1) (λ a,
      and_then (row_get r 0) (λ b,
      and_then (row_get r 2) (λ d,
      net_append_foreign_keys t rest (<[t := held ++ [(a, b, d)]]> rel))))
  end.

Fixpoint net_read_relationships (cur : Cursor) (sql : string) (tabs : list string)
    (rel : gmap string (list (string * string * string)))
  : Exn + gmap string (list (string * string * string)) :=
  match tabs with
  | [] => inr rel
  | t :: rest =>
      and_then (cur_execute cur sql [t]) (λ rows,
      and_then (net_append_foreign_keys t rows rel) (λ rel,
      net_read_relationships cur sql rest rel))
  end.

(** The body of the [try] of the three [get_schema] methods. *)
Definition net_introspect (qs : CatalogQueries) (c : NetConnection)
  : Exn + DatabaseSchema :=
  and_then (cursor c) (λ cur,
  and_then (cur_execute cur (tables_sql qs) []) (λ rows,
  and_then (comprehension (λ r, row_get r 0) rows) (λ tabs,
  and_then (net_read_columns cur (columns_sql qs) tabs ∅) (λ cols,
  and_then (net_read_relationships cur (foreign_keys_sql qs) tabs ∅) (λ rel,
  and_then (cur_close cur) (λ _,
  inr {| tables := tabs; columns := cols; relationships := rel |})))))).

(** [PostgreSQLEngine.get_schema], [MySQLEngine.get_schema] and
    [SQLServerEngine.get_schema], which differ in their three queries. *)
Definition net_get_schema (qs : CatalogQueries) (self : NetworkEngine)
  : DatabaseSchema * NetworkEngine :=
  match net_schema_cache self with
  | Some cached => (cached, self)
  | None =>
      match net_conn self with
      | None => (empty_schema, self)
      | Some c =>
          try_except
            (and_then (net_introspect qs c) (λ schema,
             inr (schema,
                  {| net_conn := net_conn self; net_dialect := net_dialect self;
                     net_name := net_name self;
                     net_schema_cache := Some schema |})))
            (empty_schema, self)
      end
  end.

(** *** Reading the input of the query builder and of the value search *)

(** [s.split(sep)] for a one-character separator, and [re.split] on a
    character class: the pieces between the separating characters, empty
    pieces included. *)
Fixpoint split_by (sep : ascii → bool) (s : string) : list string :=
  match s with
  | EmptyString => [EmptyString]
  | String c r =>
      if sep c then EmptyString :: split_by sep r
      else match split_by sep r with
           | piece :: pieces => String c piece :: pieces
           | [] => [String c EmptyString]
           end
  end.

(** [[t.strip() for t in pieces if t.strip()]] *)
Definition stripped_nonempty (pieces : list string) : list string :=
  map Py.strip (filter (λ t, Py.truthy (Py.strip t) = true) pieces).

(** [terms = [t.strip() for t in intent_input.split(",") if t.strip()]] *)
Definition parse_terms (intent_input : string) : list string :=
  stripped_nonempty (split_by (λ c, Ascii.eqb c ",") intent_input).

(** [values = [v.strip() for v in re.split(r'[\n,;|]', sample) if v.strip()]] *)
Definition parse_values (sample : string) : list string :=
  stripped_nonempty
    (split_by (λ c, Ascii.eqb c "010" || Ascii.eqb c "," ||
                    Ascii.eqb c ";" || Ascii.eqb c "|") sample).

(** The loop [for m in sorted(matches)] of the discovery results: a dotted
    match gives its table part, a bare match is a table. *)
Definition add_discovered_tables (discovered : gset string) (matches : gset string)
  : gset string :=
  foldl
    (λ acc m,
       match split_dot m with
       | Some (table, col) => {[table]} ∪ acc
       | None => {[m]} ∪ acc
       end)
    discovered (sorted (elements matches)).

(** ** Further notions *)

(** What the loop body can enqueue from [a]: a table [a] refers to, or a
    listed table that refers to [a]. *)
Definition hop (self : DatabaseSchema) (a b : string) : Prop :=
  (∃ lc rc, (b, lc, rc) ∈ rels self a) ∨
  (b ∈ tables self ∧ ∃ lc rc, (a, lc, rc) ∈ rels self b).

(** [t] can be reached from [n] by hops through tables outside [V]. *)
Inductive reach_avoiding (self : DatabaseSchema) (V : gset string)
  : string → string → Prop :=
| reach_here n : n ∉ V → reach_avoiding self V n n
| reach_step n m t :
    n ∉ V → hop self n m → reach_avoiding self V m t →
    reach_avoiding self V n t.

(** [b] is [k] hops away from [a]. *)
Inductive hop_walk (self : DatabaseSchema) : nat → string → string → Prop :=
| hop_walk_O a : hop_walk self 0 a a
| hop_walk_S k a u v :
    hop_walk self k a u → hop self u v → hop_walk self (S k) a v.

(** The queue of a search for the single target [t], level by level: plans
    of some length [L] come before plans of length [L + 1]; every table
    fewer than [L] hops from the start has been visited, every table [L]
    hops away has been visited or waits with a plan of length [L]; and what
    a visited table hops to has been visited or waits in the queue. *)
Definition levelled (self : DatabaseSchema) (start t : string) (st : Bfs)
  : Prop :=
  targets st = {[t]} ∧ t ∉ visited st ∧
  (∀ u v, u ∈ visited st → hop self u v →
          v ∈ visited st ∨ ∃ p, (v, p) ∈ queue st) ∧
  ∃ (L : nat) (A B : list (string * JoinPlan)),
    queue st = A ++ B ∧
    (∀ n p, (n, p) ∈ A → length p = L) ∧
    (∀ n p, (n, p) ∈ B → length p = S L) ∧
    (∀ k v, k < L → hop_walk self k start v → v ∈ visited st) ∧
    (∀ v, hop_walk self L start v → v ∈ visited st ∨ ∃ p, (v, p) ∈ A).

(** Every table that holds a relationship is listed. *)
Definition holders_listed (self : DatabaseSchema) : Prop :=
  ∀ k, rels self k ≠ [] → k ∈ tables self.

(** A plan that leads from [start] to [finish], each step leaving from
    where the one before arrived. *)
Fixpoint chain (start : string) (plan : JoinPlan) (finish : string) : Prop :=
  match plan with
  | [] => start = finish
  | (left_table, right_table, _, _) :: rest =>
      left_table = start ∧ chain right_table rest finish
  end.

(** The tables a plan joins: its start and the right table of each step. *)
Definition plan_tables (start : string) (plan : JoinPlan) : list string :=
  start :: map (λ step : JoinStep, step.1.1.2) plan.

(** How often a character stands in a text. *)
Fixpoint count_char (x : ascii) (s : string) : nat :=
  match s with
  | EmptyString => 0
  | String c r => (if Ascii.eqb c x then 1 else 0) + count_char x r
  end.

(** The order of [sorted]. *)
Definition str_le (a b : string) : Prop := String.leb a b = true.

(** The engine with another backend behind it. *)
Definition on_backend (c : Connection) (self : DatabaseEngine) : DatabaseEngine :=
  {| conn := Some c; dialect := dialect self; name := name self;
     _schema_cache := _schema_cache self |}.

(** A cursor that raises on the per-table reads of one table only. *)
Definition flaky_cursor : Cursor :=
  {| cur_execute := λ sql params,
       match params with
       | [] => inr [["a"]; ["b"]]
       | t :: _ => if String.eqb t "b"
                   then inl {| exn_msg := "permission denied" |}
                   else inr []
       end;
     cur_close := inr () |}.

Definition flaky : NetConnection := {| cursor := inr flaky_cursor |}.

Definition net_engine_on (c : option NetConnection) : NetworkEngine :=
  {| net_conn := c; net_dialect := POSTGRES; net_name := "PostgreSQL";
     net_schema_cache := None |}.

(** ** Facts about the text primitives *)

Section TextFacts.



Lemma all_chars_rstrip p s :
  all_chars p s = true → Py.rstrip_by p s = EmptyString.
Proof.
  induction s as [|c r IH]; simpl; [done|].
  intros [Hc Hr]%andb_prop. by rewrite IH, Hc.
Qed.

Lemma all_chars_lstrip p s :
  all_chars p s = true → Py.lstrip_by p s = EmptyString.
Proof.
  induction s as [|c r IH]; simpl; [done|].
  intros [Hc Hr]%andb_prop. rewrite Hc. auto.
Qed.

Lemma all_chars_impl (p p' : ascii → bool) s :
  (∀ c, p c = true → p' c = true) →
  all_chars p s = true → all_chars p' s = true.
Proof.
  intros Hpp'. induction s as [|c r IH]; simpl; [done|].
  intros [Hc Hr]%andb_prop. by rewrite (Hpp' _ Hc), IH.
Qed.




Lemma in_all_ascii c : In c all_ascii.
Proof.
  rewrite <- (ascii_nat_embedding c). apply in_map, in_seq.
  pose proof (nat_ascii_bounded c). lia.
Qed.

Lemma ascii_forall (P : ascii → bool) :
  forallb P all_ascii = true → ∀ c, P c = true.
Proof. intros H c. eapply forallb_forall in H; [done|apply in_all_ascii]. Qed.



Lemma append_assoc (a b d : string) : (a +:+ b) +:+ d = a +:+ (b +:+ d).
Proof.
  induction a as [|x a IH]; [done|].
  change (String x ((a +:+ b) +:+ d) = String x (a +:+ (b +:+ d))).
  by f_equal.
Qed.


(** A letter that equals a capital up to case is a word character and
    matches it under IGNORECASE. *)
Lemma capital_match u m :
  Py.isupper u = true → Py.lower_char m = Py.lower_char u →
  Re.ci_eq u m = true ∧ Py.isword m = true.
Proof.
  intros Hu Hm. split.
  - unfold Re.ci_eq. rewrite Hm. apply Ascii.eqb_refl.
  - pose proof (ascii_forall
      (λ u, forallb
              (λ m, implb (Py.isupper u &&
                           Ascii.eqb (Py.lower_char m) (Py.lower_char u))
                          (Py.isword m))
              all_ascii)
      ltac:(vm_compute; reflexivity) u) as H.
    cbv beta in H. eapply forallb_forall in H; [|apply (in_all_ascii m)].
    cbv beta in H. rewrite Hu, Hm, Ascii.eqb_refl in H. exact H.
Qed.

End TextFacts.

(** ** The word search finds every whole-word occurrence *)

Section WordSearch.

Lemma lower_nil s : Py.lower s = EmptyString → s = EmptyString.
Proof. by destruct s. Qed.

Lemma literal_ci_spells w : ∀ mid post prev,
  all_chars Py.isupper w = true →
  Py.lower mid = Py.lower w →
  Re.literal_ci w (mid +:+ post) prev
    = Some (from_option Some prev (last_char mid), post)
  ∧ all_chars Py.isword mid = true.
Proof.
  induction w as [|u w' IH]; intros mid post prev Hup Hlow.
  - apply lower_nil in Hlow as ->. done.
  - destruct mid as [|m mid']; [discriminate|].
    simpl in Hup. apply andb_prop in Hup as [Hu Hup].
    injection Hlow as Hm Hlow.
    destruct (capital_match u m Hu Hm) as [Hci Hword].
    destruct (IH mid' post (Some m) Hup Hlow) as [Hlit Hall].
    split.
    + simpl. rewrite Hci, Hlit. by destruct (last_char mid').
    + simpl. by rewrite Hword, Hall.
Qed.

Lemma last_char_all p s :
  all_chars p s = true → s ≠ EmptyString →
  ∃ c, last_char s = Some c ∧ p c = true.
Proof.
  induction s as [|c r IH]; [done|]. simpl.
  intros [Hc Hr]%andb_prop _.
  destruct r as [|c' r']; [by exists c|].
  destruct (IH Hr) as (x & -> & Hx); [done|]. by exists x.
Qed.

Lemma word_here_spelled w mid post prev :
  capital_word w = true →
  Py.lower mid = Py.lower w →
  Re.is_w prev = false →
  Re.is_w (Re.head post) = false →
  Re.word_here w prev (mid +:+ post) = true.
Proof.
  intros [Hne Hup]%andb_prop Hlow Hprev Hpost.
  destruct (literal_ci_spells w mid post prev Hup Hlow) as [Hlit Hall].
  assert (mid ≠ EmptyString) as Hmid.
  { intros ->. destruct w; discriminate. }
  destruct (last_char_all _ _ Hall Hmid) as (l & Hl & Hlw).
  unfold Re.word_here. rewrite Hlit, Hl. simpl.
  destruct mid as [|m mid']; [done|]. simpl in *.
  apply andb_prop in Hall as [Hm _].
  unfold Re.boundary. simpl. by rewrite Hprev, Hpost, Hm, Hlw.
Qed.

Lemma search_word_from_spelled w mid post : ∀ pre prev,
  capital_word w = true →
  Py.lower mid = Py.lower w →
  Re.is_w (from_option Some prev (last_char pre)) = false →
  Re.is_w (Re.head post) = false →
  Re.search_word_from w prev (pre +:+ mid +:+ post) = true.
Proof.
  induction pre as [|c r IH]; intros prev Hw Hlow Hprev Hpost.
  - simpl in *. destruct (mid +:+ post) eqn:E; simpl;
      rewrite <- ?E, word_here_spelled; done.
  - simpl. rewrite (IH (Some c)); [by rewrite orb_true_r|done..| |done].
    simpl in Hprev. by destruct (last_char r).
Qed.

(** A whole-word occurrence of a capital word, in any letter case, is
    found by the search. *)
Lemma search_word_complete w text :
  capital_word w = true → occurs_as_word w text →
  Re.search_word w text = true.
Proof.
  intros Hw (pre & mid & post & -> & Hlow & Hpre & Hpost).
  apply search_word_from_spelled; try done.
  by destruct (last_char pre).
Qed.

Lemma dangerous_capital w : w ∈ dangerous → capital_word w = true.
Proof.
  intros Hin. apply list_elem_of_In in Hin.
  assert (forallb capital_word dangerous = true) as H by reflexivity.
  eapply forallb_forall in H; eauto.
Qed.

Lemma contains_dangerous_sql_some sql w :
  contains_dangerous_sql sql = Some w →
  w ∈ dangerous ∧ Re.search_word w sql = true.
Proof.
  intros [Hin Hs]%find_some. by apply list_elem_of_In in Hin.
Qed.

Lemma contains_dangerous_sql_finds sql w :
  w ∈ dangerous → Re.search_word w sql = true →
  ∃ w', contains_dangerous_sql sql = Some w'.
Proof.
  intros Hin Hs. destruct (contains_dangerous_sql sql) as [w'|] eqn:E; [eauto|].
  apply list_elem_of_In in Hin.
  pose proof (find_none _ _ E w Hin) as Hn. simpl in Hn. congruence.
Qed.


Lemma literal_ci_inv w : ∀ s prev last rest,
  Re.literal_ci w s prev = Some (last, rest) →
  ∃ mid, s = mid +:+ rest ∧ Py.lower mid = Py.lower w ∧
         last = from_option Some prev (last_char mid).
Proof.
  induction w as [|u w' IH]; intros s prev last rest; simpl.
  - intros [= <- <-]. by exists EmptyString.
  - destruct s as [|c s']; [done|].
    destruct (Re.ci_eq u c) eqn:Hci; [|done].
    intros (mid & -> & Hlow & ->)%IH.
    exists (String c mid). split; [done|]. split.
    + apply Ascii.eqb_eq in Hci. cbn. by rewrite Hlow, Hci.
    + simpl. by destruct (last_char mid).
Qed.

Lemma word_here_inv w prev s :
  capital_word w = true → Re.word_here w prev s = true →
  ∃ mid post, s = mid +:+ post ∧ Py.lower mid = Py.lower w ∧
              Re.is_w prev = false ∧ Re.is_w (Re.head post) = false.
Proof.
  intros Hcap [Hb Hlit]%andb_prop.
  pose proof Hcap as [Hne Hup]%andb_prop.
  destruct (Re.literal_ci w s prev) as [[last rest]|] eqn:E; [|done].
  apply literal_ci_inv in E as (mid & -> & Hlow & ->).
  destruct (literal_ci_spells w mid rest prev Hup Hlow) as [_ Hall].
  assert (mid ≠ EmptyString) as Hmid.
  { intros ->. destruct w; discriminate. }
  destruct (last_char_all _ _ Hall Hmid) as (l & Hl & Hlw).
  rewrite Hl in Hlit. simpl in Hlit.
  exists mid, rest. split; [done|]. split; [done|].
  destruct mid as [|m mid']; [done|].
  simpl in Hall. apply andb_prop in Hall as [Hm _].
  unfold Re.boundary in *. simpl in Hb, Hlit. rewrite Hm in Hb.
  rewrite Hlw in Hlit.
  split; [by destruct (Re.is_w prev)|by destruct (Re.is_w (Re.head rest))].
Qed.

Lemma search_word_from_inv w : ∀ s prev,
  capital_word w = true → Re.search_word_from w prev s = true →
  ∃ pre mid post,
    s = pre +:+ mid +:+ post ∧ Py.lower mid = Py.lower w ∧
    Re.is_w (from_option Some prev (last_char pre)) = false ∧
    Re.is_w (Re.head post) = false.
Proof.
  induction s as [|c r IH]; intros prev Hcap; simpl.
  - rewrite orb_false_r. intros (mid & post & ? & ? & ? & ?)%word_here_inv; [|done].
    by exists EmptyString, mid, post.
  - intros [H|H]%orb_prop.
    + apply word_here_inv in H as (mid & post & ? & ? & ? & ?); [|done].
      by exists EmptyString, mid, post.
    + apply IH in H as (pre & mid & post & -> & ? & Hp & ?); [|done].
      exists (String c pre), mid, post. repeat split; try done.
      simpl. by destruct (last_char pre).
Qed.

(** What the search reports is a whole-word occurrence. *)
Lemma search_word_sound w text :
  capital_word w = true → Re.search_word w text = true →
  occurs_as_word w text.
Proof.
  intros Hcap (pre & mid & post & -> & ? & Hp & ?)%search_word_from_inv; [|done].
  exists pre, mid, post. repeat split; try done. by destruct (last_char pre).
Qed.

Lemma find_first {A} (f : A → bool) (l : list A) x :
  List.find f l = Some x →
  ∃ before after, l = before ++ x :: after ∧ f x = true ∧
                  Forall (λ y, f y = false) before.
Proof.
  induction l as [|y r IH]; simpl; [done|].
  destruct (f y) eqn:E.
  - intros [= ->]. by exists [], r.
  - intros (before & after & -> & ? & ?)%IH.
    exists (y :: before), after. repeat split; try done. by constructor.
Qed.

(** The word the scan returns stands in the text as a whole word, and no
    earlier entry of the denylist does. *)
Lemma contains_dangerous_sql_first sql w :
  contains_dangerous_sql sql = Some w →
  occurs_as_word w sql ∧
  ∃ before after,
    dangerous = before ++ w :: after ∧
    Forall (λ w', ¬ occurs_as_word w' sql) before.
Proof.
  intros Hfind.
  pose proof (contains_dangerous_sql_some _ _ Hfind) as [Hw Hs].
  split; [by apply search_word_sound; [apply dangerous_capital|]|].
  apply find_first in Hfind as (before & after & Heq & _ & Hbefore).
  exists before, after. split; [done|].
  apply Forall_forall. intros w' Hw' Hocc.
  eapply Forall_forall in Hbefore; [|exact Hw'].
  assert (w' ∈ dangerous) as Hin by (rewrite Heq; set_solver).
  pose proof (search_word_complete _ _ (dangerous_capital _ Hin) Hocc).
  simpl in Hbefore. congruence.
Qed.

End WordSearch.

(** ** The safety gate *)

Section SafetyGate.



(** C3, as amended.  Without a live connection [execute_select] refuses
    at once, for every input, with an error outcome carrying the message
    "Not connected to database"; nothing is handed to the backend. *)
Theorem no_connection_is_error (self : DatabaseEngine) (sql : string) :
  conn self = None →
  execute_select self sql
    = (mk_result "error" None "Not connected to database", []).
Proof. intros Hconn. unfold execute_select. by rewrite Hconn. Qed.

End SafetyGate.

(** ** The join-path search *)

Section JoinPath.

Variable self : DatabaseSchema.

Lemma elem_forward_edges cur path vis n p :
  (n, p) ∈ forward_edges self cur path vis → extends_by self cur path n p.
Proof.
  unfold forward_edges. rewrite list_elem_of_In, in_flat_map.
  intros ([[r lc] rc] & Hin & Hx). left.
  case_decide; [|by destruct Hx].
  apply list_elem_of_In, list_elem_of_singleton in Hx. injection Hx as -> ->.
  exists lc, rc. split; [|done]. by apply list_elem_of_In.
Qed.

Lemma elem_reverse_edges cur path vis n p :
  (n, p) ∈ reverse_edges self cur path vis → extends_by self cur path n p.
Proof.
  unfold reverse_edges. rewrite list_elem_of_In, in_flat_map.
  intros (t & Ht & Hx). right.
  case_decide; [|by destruct Hx].
  apply in_flat_map in Hx as ([[r lc] rc] & Hin & Hx).
  case_decide as Hr; [|by destruct Hx]. subst r.
  apply list_elem_of_In, list_elem_of_singleton in Hx. injection Hx as -> ->.
  split; [by apply list_elem_of_In|].
  exists lc, rc. split; [|done]. by apply list_elem_of_In.
Qed.

(** What one pass of the loop body does when the loop goes on. *)
Lemma bfs_iter_again st st' :
  bfs_iter self st = Again st' →
  ∃ cur path rest,
    queue st = (cur, path) :: rest ∧
    ((cur ∈ targets st ∧ targets st' = (targets st ∖ {[cur]}) ∧
      targets st' ≠ ∅ ∧ visited st' = ({[cur]} ∪ ∅) ∧
      queue st' = [(cur, path)]
                    ++ forward_edges self cur path ({[cur]} ∪ ∅)
                    ++ reverse_edges self cur path ({[cur]} ∪ ∅)) ∨
     ((cur ∉ targets st) ∧ cur ∈ visited st ∧ targets st' = targets st ∧
      visited st' = visited st ∧ queue st' = rest) ∨
     ((cur ∉ targets st) ∧ (cur ∉ visited st) ∧ targets st' = targets st ∧
      visited st' = ({[cur]} ∪ visited st) ∧
      queue st' = rest
                    ++ forward_edges self cur path ({[cur]} ∪ visited st)
                    ++ reverse_edges self cur path ({[cur]} ∪ visited st))).
Proof.
  unfold bfs_iter. destruct (queue st) as [|[cur path] rest] eqn:Hq; [done|].
  intros H. exists cur, path, rest. split; [done|].
  destruct (decide (cur ∈ targets st)) as [Hin|Hout].
  - destruct (decide (targets st ∖ {[cur]} = ∅)) as [|Hne]; [done|].
    unfold expand in H. rewrite decide_False in H by set_solver.
    injection H as <-. left. done.
  - right. unfold expand in H.
    destruct (decide (cur ∈ visited st)); injection H as <-; [left|right]; done.
Qed.

(** When one pass of the loop body returns. *)
Lemma bfs_iter_return st r :
  bfs_iter self st = Return r →
  (queue st = [] ∧ r = None) ∨
  (∃ cur path rest,
     queue st = (cur, path) :: rest ∧ cur ∈ targets st ∧
     (targets st ∖ {[cur]}) = ∅ ∧ r = Some path).
Proof.
  unfold bfs_iter. destruct (queue st) as [|[cur path] rest] eqn:Hq.
  - intros [= <-]. by left.
  - intros H. right. exists cur, path, rest.
    destruct (decide (cur ∈ targets st)) as [Hin|Hout].
    + destruct (decide (targets st ∖ {[cur]} = ∅)) as [He|Hne].
      * by injection H as <-.
      * unfold expand in H. by case_decide.
    + unfold expand in H. by case_decide.
Qed.

(** Every entry of the next queue is an old entry or extends one. *)
Lemma bfs_iter_queue st st' n p :
  bfs_iter self st = Again st' → (n, p) ∈ queue st' →
  (n, p) ∈ queue st ∨
  ∃ cur path, (cur, path) ∈ queue st ∧ extends_by self cur path n p.
Proof.
  intros (cur & path & rest & Hq & Hcase)%bfs_iter_again Hin.
  rewrite Hq.
  destruct Hcase as [(_ & _ & _ & _ & Hq')|[(_ & _ & _ & _ & Hq')|(_ & _ & _ & _ & Hq')]];
    rewrite Hq' in Hin.
  - rewrite !elem_of_app in Hin. destruct Hin as [Hin|[Hin|Hin]].
    + apply list_elem_of_singleton in Hin as ->. left. by left.
    + right. exists cur, path. split; [by left|]. by eapply elem_forward_edges.
    + right. exists cur, path. split; [by left|]. by eapply elem_reverse_edges.
  - left. by right.
  - rewrite !elem_of_app in Hin. destruct Hin as [Hin|[Hin|Hin]].
    + left. by right.
    + right. exists cur, path. split; [by left|]. by eapply elem_forward_edges.
    + right. exists cur, path. split; [by left|]. by eapply elem_reverse_edges.
Qed.

(** A property of queue entries that extensions keep holds throughout. *)
Lemma bfs_iter_preserves (P : string → JoinPlan → Prop) st st' :
  (∀ cur path n p, P cur path → extends_by self cur path n p → P n p) →
  (∀ n p, (n, p) ∈ queue st → P n p) →
  bfs_iter self st = Again st' →
  ∀ n p, (n, p) ∈ queue st' → P n p.
Proof.
  intros Hext Hall Hiter n p Hin.
  destruct (bfs_iter_queue _ _ _ _ Hiter Hin) as [|(cur & path & Hc & He)]; eauto.
Qed.

(** An invariant of the loop holds in the state from which it returns. *)
Lemma bfs_loop_invariant (I : Bfs → Prop) :
  (∀ st st', I st → bfs_iter self st = Again st' → I st') →
  ∀ fuel st r, I st → bfs_loop fuel self st = Some r →
  ∃ final, I final ∧ bfs_iter self final = Return r.
Proof.
  intros Hstep. induction fuel as [|fuel IH]; intros st r HI; simpl; [done|].
  destruct (bfs_iter self st) as [r'|st'] eqn:E.
  - intros [= ->]. eauto.
  - intros H. eapply IH; [|exact H]. eauto.
Qed.

(** More fuel does not change a result. *)
Lemma bfs_loop_mono fuel : ∀ st r m,
  bfs_loop fuel self st = Some r → fuel ≤ m → bfs_loop m self st = Some r.
Proof.
  induction fuel as [|fuel IH]; intros st r m; simpl; [done|].
  intros H Hle. destruct m as [|m]; [lia|]. simpl.
  destruct (bfs_iter self st); [done|]. apply IH; [done|lia].
Qed.

Lemma covers_universe : covers self (universe self).
Proof.
  split.
  - intros t Ht. unfold universe. set_solver.
  - intros k r lc rc Hin. unfold universe, rels in *.
    destruct (relationships self !! k) as [l|] eqn:E; simpl in Hin;
      [|by apply elem_of_nil in Hin].
    apply elem_of_union_r, elem_of_list_to_set, list_elem_of_In, in_flat_map.
    exists (k, l). split.
    + by apply list_elem_of_In, elem_of_map_to_list.
    + simpl. apply in_map_iff. exists (r, lc, rc). split; [done|].
      by apply list_elem_of_In.
Qed.

Lemma extends_by_covered U cur path n p :
  covers self U → extends_by self cur path n p → n ∈ U.
Proof.
  intros [Ht Hr] [(lc & rc & Hin & _)|(Hin & _)]; eauto.
Qed.

(** The loop returns from every state whose queue stays inside a finite
    set of table names: each pass removes a target, or visits a new table
    with the targets unchanged, or shortens the queue with both unchanged. *)
Lemma bfs_loop_terminates U :
  covers self U →
  ∀ a b c st,
    size (targets st) = a → size (U ∖ visited st) = b →
    length (queue st) = c →
    (∀ n p, (n, p) ∈ queue st → n ∈ U) →
    ∃ fuel r, bfs_loop fuel self st = Some r.
Proof.
  intros Hcov.
  induction a as [a IHa] using lt_wf_ind.
  induction b as [b IHb] using lt_wf_ind.
  induction c as [c IHc] using lt_wf_ind.
  intros st Ha Hb Hc HU.
  destruct (bfs_iter self st) as [r|st'] eqn:Hiter.
  { exists 1, r. simpl. by rewrite Hiter. }
  assert (∀ n p, (n, p) ∈ queue st' → n ∈ U) as HU'.
  { apply (bfs_iter_preserves (λ n _, n ∈ U) st); [|done..].
    intros cur path n p _ He. by eapply extends_by_covered. }
  assert (∃ fuel r, bfs_loop fuel self st' = Some r) as (fuel & r & Hrun).
  { destruct (bfs_iter_again _ _ Hiter) as (cur & path & rest & Hq & Hcase).
    assert (cur ∈ U) as HcurU by (eapply HU; rewrite Hq; left).
    destruct Hcase as [(Hin & Htg & _)|[(_ & _ & Htg & Hvis & Hq')|(_ & Hnv & Htg & Hvis & _)]].
    - eapply (IHa (size (targets st'))); [|done..].
      subst a. rewrite Htg. apply subset_size. set_solver.
    - eapply (IHc (length (queue st'))); [|congruence..|done].
      rewrite Hq', <- Hc, Hq. simpl. lia.
    - eapply (IHb (size (U ∖ visited st'))); [|congruence|done..].
      subst b. rewrite Hvis. apply subset_size. set_solver. }
  exists (S fuel), r. simpl. by rewrite Hiter.
Qed.

Lemma bfs_init_terminates start rest :
  ∃ fuel r, bfs_loop fuel self (bfs_init start rest) = Some r.
Proof.
  eapply (bfs_loop_terminates ({[start]} ∪ universe self)); try done.
  - destruct covers_universe as [Ht Hr]. split; intros; set_solver.
  - intros n p Hin. simpl in Hin.
    apply list_elem_of_singleton in Hin as [= -> ->]. set_solver.
Qed.

Lemma extends_by_real_edges cur path n p :
  Forall (real_edge self) path → extends_by self cur path n p →
  Forall (real_edge self) p.
Proof.
  intros Hpath [(lc & rc & Hin & ->)|(_ & lc & rc & Hin & ->)];
    apply Forall_app; (split; [done|]); apply Forall_singleton; simpl; auto.
Qed.

Lemma extends_by_adjacent cur path n p :
  extends_by self cur path n p → adjacent self cur n.
Proof.
  intros [(lc & rc & Hin & _)|(_ & lc & rc & Hin & _)]; [left|right]; eauto.
Qed.

(** Every plan the loop returns is made of relationships of the model. *)
Lemma bfs_loop_real_edges fuel st plan :
  (∀ n p, (n, p) ∈ queue st → Forall (real_edge self) p) →
  bfs_loop fuel self st = Some (Some plan) →
  Forall (real_edge self) plan.
Proof.
  intros Hq Hrun.
  destruct (bfs_loop_invariant
              (λ st, ∀ n p, (n, p) ∈ queue st → Forall (real_edge self) p))
    with (fuel := fuel) (st := st) (r := Some plan)
    as (final & Hfinal & Hret); [|done..|].
  - intros s s' Hs Hiter.
    apply (bfs_iter_preserves (λ _ p, Forall (real_edge self) p) s); [|done..].
    intros cur path n p. apply extends_by_real_edges.
  - apply bfs_iter_return in Hret
      as [[_ [=]]|(cur & path & rest & Hqf & _ & _ & [= ->])].
    eapply Hfinal. rewrite Hqf. left.
Qed.

(** A target out of reach of the start table is never resolved. *)
Lemma bfs_loop_unreachable fuel start t st r :
  ¬ connected self start t →
  (∀ n p, (n, p) ∈ queue st → connected self start n) →
  t ∈ targets st →
  bfs_loop fuel self st = Some r → r = None.
Proof.
  intros Hfar Hq Ht Hrun.
  destruct (bfs_loop_invariant
              (λ st, (∀ n p, (n, p) ∈ queue st → connected self start n) ∧
                     t ∈ targets st))
    with (fuel := fuel) (st := st) (r := r)
    as (final & [Hfq Hft] & Hret); [|done..|].
  - intros s s' [Hsq Hst] Hiter. split.
    + apply (bfs_iter_preserves (λ n _, connected self start n) s); [|done..].
      intros cur path n p Hc He. eapply rtc_r; [exact Hc|].
      by eapply extends_by_adjacent.
    + destruct (bfs_iter_again _ _ Hiter) as (cur & path & rest & Hqs & Hcase).
      assert (cur ≠ t) as Hne.
      { intros ->. apply Hfar. eapply Hsq. rewrite Hqs. left. }
      destruct Hcase as [(_ & -> & _)|[(_ & _ & -> & _)|(_ & _ & -> & _)]];
        set_solver.
  - apply bfs_iter_return in Hret
      as [[_ ->]|(cur & path & rest & Hqf & _ & Hempty & _)]; [done|].
    assert (cur ≠ t) as Hne.
    { intros ->. apply Hfar. eapply Hfq. rewrite Hqf. left. }
    set_solver.
Qed.

End JoinPath.

(** C4.  Whenever [find_join_path] returns a plan, each of its steps
    [(left_table, right_table, left_column, right_column)] is a relationship
    of the model in one of the two directions; and on the model with tables
    Orders and Customers and the one relationship from Orders to Customers
    over CustomerID, the request for Orders and Customers returns exactly
    the step (Orders, Customers, CustomerID, CustomerID). *)
Theorem join_path_follows_relationships :
  (∀ (self : DatabaseSchema) (fuel : nat) (tabs : list string) (plan : JoinPlan),
     find_join_path fuel self tabs = Some (Some plan) →
     Forall (real_edge self) plan) ∧
  (∀ (cols : gmap string (list string)) (fuel : nat),
     2 ≤ fuel →
     find_join_path fuel
       {| tables := ["Orders"; "Customers"];
          columns := cols;
          relationships :=
            {[ "Orders" := [("Customers", "CustomerID", "CustomerID")] ]} |}
       ["Orders"; "Customers"]
     = Some (Some [("Orders", "Customers", "CustomerID", "CustomerID")])).
Proof.
  split.
  - intros self fuel tabs plan H.
    destruct tabs as [|start [|second rest]]; [done..|].
    eapply bfs_loop_real_edges; [|exact H].
    intros n p Hin. simpl in Hin.
    apply list_elem_of_singleton in Hin as [= -> ->]. constructor.
  - intros cols fuel Hfuel.
    destruct fuel as [|[|fuel]]; [lia..|]. vm_compute. reflexivity.
Qed.

(** C5.  [find_join_path] returns on every model and every request, cycles
    in the relationships included: some amount of fuel lets the loop run to
    its return, and any larger amount gives the same result. *)
Theorem find_join_path_terminates (self : DatabaseSchema) (tabs : list string) :
  ∃ fuel r, ∀ m, fuel ≤ m → find_join_path m self tabs = Some r.
Proof.
  destruct tabs as [|start [|second rest]];
    [by exists 0, None..|].
  destruct (bfs_init_terminates self start (second :: rest)) as (fuel & r & Hrun).
  exists fuel, r. intros m Hm. simpl. by eapply bfs_loop_mono.
Qed.

(** C6.  On a request of fewer than two tables [find_join_path] returns
    None; when some requested table cannot be reached from the first one
    through relationships in either direction, it returns None and not a
    plan; and a pass of the loop that finds the queue empty returns None. *)
Theorem find_join_path_none :
  (∀ (self : DatabaseSchema) (fuel : nat) (tabs : list string),
     length tabs < 2 → find_join_path fuel self tabs = Some None) ∧
  (∀ (self : DatabaseSchema) (start t : string) (rest : list string),
     t ∈ rest → ¬ connected self start t →
     ∃ fuel, ∀ m, fuel ≤ m →
       find_join_path m self (start :: rest) = Some None) ∧
  (∀ (self : DatabaseSchema) (fuel : nat) (st : Bfs),
     queue st = [] → bfs_loop (S fuel) self st = Some None).
Proof.
  split; [|split].
  - intros self fuel [|start [|second rest]] Hlen; simpl in *; [done..|lia].
  - intros self start t rest Ht Hfar.
    destruct rest as [|second rest]; [by apply elem_of_nil in Ht|].
    destruct (bfs_init_terminates self start (second :: rest)) as (fuel & r & Hrun).
    assert (r = None) as ->.
    { eapply (bfs_loop_unreachable self fuel start t); [done| | |exact Hrun].
      - intros n p Hin. simpl in Hin.
        apply list_elem_of_singleton in Hin as [= -> ->]. apply rtc_refl.
      - unfold bfs_init. cbn [targets]. by apply elem_of_list_to_set. }
    exists fuel. intros m Hm. simpl. by eapply bfs_loop_mono.
  - intros self fuel st Hq. simpl. unfold bfs_iter. by rewrite Hq.
Qed.

(** C10.  A request of at least two tables whose later entries all repeat
    the first one returns the empty plan, present and not None: the start
    table is found among the targets at once, with nothing accumulated.
    So does [find_join_path([T, T])] on every model. *)
Theorem find_join_path_repeated_start :
  (∀ (self : DatabaseSchema) (T : string) (fuel : nat),
     find_join_path (S fuel) self [T; T] = Some (Some [])) ∧
  (∀ (self : DatabaseSchema) (T : string) (rest : list string) (fuel : nat),
     rest ≠ [] → (∀ x, x ∈ rest → x = T) →
     find_join_path (S fuel) self (T :: rest) = Some (Some [])).
Proof.
  assert (∀ (self : DatabaseSchema) (T : string) (rest : list string) (fuel : nat),
     rest ≠ [] → (∀ x, x ∈ rest → x = T) →
     find_join_path (S fuel) self (T :: rest) = Some (Some [])) as Hgen.
  { intros self T rest fuel Hne Hall.
    destruct rest as [|second rest]; [done|].
    assert (second = T) as -> by (apply Hall; left).
    simpl. unfold bfs_iter. simpl.
    rewrite decide_True by set_solver.
    rewrite decide_True; [done|].
    apply set_eq. intros x. split; [|set_solver].
    rewrite elem_of_difference, elem_of_union, elem_of_list_to_set.
    intros [[Hx|Hx] Hnx]; [set_solver|].
    assert (x = T) by (apply Hall; by right). set_solver. }
  split; [|exact Hgen].
  intros self T fuel. apply Hgen; [done|].
  intros x Hx. by apply list_elem_of_singleton in Hx.
Qed.

(** ** Introspection *)

Section Introspection.

Variable c : Connection.

Lemma read_columns_lookup tabs t :
  t ∈ tabs → read_columns c tabs !! t = Some (table_columns c t).
Proof.
  unfold read_columns. induction tabs as [|x r IH] using rev_ind.
  - intros H. by apply elem_of_nil in H.
  - rewrite foldl_app. simpl. intros Hin.
    destruct (decide (x = t)) as [->|Hne].
    + by rewrite lookup_insert_eq.
    + rewrite lookup_insert_ne by done. apply IH.
      apply elem_of_app in Hin as [|Hin]; [done|].
      by apply list_elem_of_singleton in Hin.
Qed.

Lemma append_foreign_keys_other t t' rows : ∀ rel,
  t ≠ t' → append_foreign_keys t' rows rel !! t = rel !! t.
Proof.
  induction rows as [|r rest IH]; intros rel Hne; simpl; [done|].
  destruct (row_get r 2), (row_get r 3), (row_get r 4);
    rewrite ?IH by done; by rewrite !lookup_insert_ne.
Qed.

Lemma read_relationships_failed tabs t e :
  execute c (foreign_key_query t) = inl e →
  read_relationships c tabs !! t = None.
Proof.
  intros Hfail. unfold read_relationships.
  induction tabs as [|x r IH] using rev_ind; [done|].
  rewrite foldl_app. simpl.
  destruct (decide (x = t)) as [->|Hne].
  - by rewrite Hfail.
  - destruct (execute c (foreign_key_query x)); [done|].
    by rewrite append_foreign_keys_other.
Qed.

Lemma table_columns_failed t e :
  execute c (table_info_query t) = inl e → table_columns c t = [].
Proof. intros H. unfold table_columns. by rewrite H. Qed.

End Introspection.

(** C7, as amended.  On an engine with a live connection and no cached
    schema: when the read of the table list raises, [get_schema] returns the
    empty schema (no tables, columns or relationships) and leaves the cache
    unset, so nothing is propagated; when the table list is read, the listed
    tables are returned, and a table whose column read raises is kept with
    an empty column list, a table whose foreign-key read raises is kept
    without relationships. *)
Theorem introspection_absorbs_failures (self : DatabaseEngine) (c : Connection) :
  _schema_cache self = None →
  conn self = Some c →
  (∀ e, execute c master_query = inl e →
        get_schema self = (empty_schema, self)) ∧
  (∀ rows tabs,
     execute c master_query = inr rows →
     comprehension (λ r, row_get r 0) rows = inr tabs →
     tables (get_schema self).1 = tabs ∧
     _schema_cache (get_schema self).2 = Some (get_schema self).1 ∧
     (∀ t e, t ∈ tabs → execute c (table_info_query t) = inl e →
             columns (get_schema self).1 !! t = Some []) ∧
     (∀ t e, execute c (foreign_key_query t) = inl e →
             relationships (get_schema self).1 !! t = None)).
Proof.
  intros Hcache Hconn. split.
  - intros e Hfail. unfold get_schema. by rewrite Hcache, Hconn, Hfail.
  - intros rows tabs Hrows Htabs.
    unfold get_schema. rewrite Hcache, Hconn, Hrows, Htabs. simpl.
    repeat split.
    + intros t e Hin Hfail.
      by rewrite read_columns_lookup, (table_columns_failed _ _ e).
    + intros t e Hfail. by eapply read_relationships_failed.
Qed.

(** C8, evaluated.  For the TOP-style dialect the single-table draft is
    SELECT * on the quoted table and nothing more: it carries neither a TOP
    nor a LIMIT fragment, while the draft for several tables opens with
    SELECT TOP 10 and the single-table draft of the other dialects closes
    with LIMIT 10. *)
Theorem single_table_draft_sqlserver_unlimited :
  (∀ (t : string) (join_path : option JoinPlan)
     (discovered : list (string * list string)),
     sql_preview SQLSERVER [t] join_path discovered
     = "SELECT" +:+ nl +:+ "  *" +:+ nl +:+ "FROM [" +:+ t +:+ "]" +:+ nl) ∧
  Py.contains "TOP" (sql_preview SQLSERVER ["Orders"] None []) = false ∧
  Py.contains "LIMIT" (sql_preview SQLSERVER ["Orders"] None []) = false ∧
  Py.startswith
    (sql_preview SQLSERVER ["Orders"; "Customers"]
       (Some [("Orders", "Customers", "CustomerID", "CustomerID")]) [])
    "SELECT TOP 10" = true ∧
  (∀ (d : SQLDialect) (t : string) (join_path : option JoinPlan)
     (discovered : list (string * list string)),
     sql_preview d [t] join_path discovered
     = "SELECT" +:+ nl +:+ "  *" +:+ nl +:+ "FROM " +:+ q t d +:+ nl +:+
       (if decide (d = SQLSERVER) then EmptyString else "LIMIT 10")).
Proof.
  split; [|split; [|split; [|split]]].
  - intros t join_path discovered. unfold sql_preview, q, render_limit.
    simpl. rewrite !append_assoc. reflexivity.
  - vm_compute. reflexivity.
  - vm_compute. reflexivity.
  - vm_compute. reflexivity.
  - intros d t join_path discovered. by destruct d.
Qed.

(** ** Term discovery *)

Section DiscoveryFacts.

Lemma elem_of_insert_sorted x y l : x ∈ insert_sorted y l ↔ x = y ∨ x ∈ l.
Proof.
  induction l as [|z r IH]; simpl.
  - rewrite list_elem_of_singleton, elem_of_nil. tauto.
  - destruct (String.leb y z); rewrite !elem_of_cons, ?IH; naive_solver.
Qed.

Lemma elem_of_sorted x l : x ∈ sorted l ↔ x ∈ l.
Proof.
  induction l as [|y r IH]; simpl; [done|].
  by rewrite elem_of_insert_sorted, elem_of_cons, IH.
Qed.


Lemma elem_of_hits schema needle n :
  n ∈ hits schema needle ↔ n ∈ search_space schema ∧ hit needle n = true.
Proof. unfold hits. rewrite list_elem_of_filter. tauto. Qed.

(** One matching loop adds exactly the names of the search space that the
    needle hits. *)
Lemma match_loop_matches needle label space : ∀ acc n,
  n ∈ (match_loop needle label space acc).1 ↔
  n ∈ acc.1 ∨ (n ∈ space ∧ hit needle n = true).
Proof.
  unfold match_loop.
  induction space as [|x r IH]; intros [m e] n; simpl.
  - rewrite elem_of_nil. tauto.
  - rewrite IH, elem_of_cons. destruct (hit needle x) eqn:E; simpl.
    + rewrite elem_of_union, elem_of_singleton. split.
      * intros [[->|?]|[? ?]]; auto.
      * intros [?|[[->|?] ?]]; auto.
    + split.
      * intros [?|[? ?]]; auto.
      * intros [?|[[->|?] ?]]; auto. congruence.
Qed.

(** The loop over the synonyms adds the hits of each synonym. *)
Lemma synonym_loop_matches schema (label : string → string → string)
    synonyms : ∀ acc n,
  n ∈ (foldl (λ acc synonym,
                match_loop (Py.lower synonym) (label synonym)
                  (search_space schema) acc)
             acc synonyms).1 ↔
  n ∈ acc.1 ∨
  n ∈ flat_map (λ synonym, hits schema (Py.lower synonym)) synonyms.
Proof.
  induction synonyms as [|s r IH]; intros acc n; simpl.
  - rewrite elem_of_nil. tauto.
  - rewrite IH, match_loop_matches, elem_of_app, elem_of_hits. tauto.
Qed.

Lemma set_empty_iff_no_elem (X : gset string) (l : list string) :
  (∀ n, n ∈ X ↔ n ∈ l) → (X = ∅ ↔ l = []).
Proof.
  intros H. split.
  - intros ->. destruct l as [|x r]; [done|].
    exfalso. eapply (not_elem_of_empty (C := gset string) x), H. left.
  - intros ->. apply set_eq. intros n. rewrite H. set_solver.
Qed.

Variable get_close_matches : string → list string → list string.

(** The names [discover_term] returns: the direct hits when there are
    any, otherwise the hits of the synonyms listed for the term; the
    suggestions of the last stage add nothing. *)
Lemma discover_term_matches schema term n :
  n ∈ (discover_term get_close_matches schema term).1 ↔
  if decide (direct_hits schema term = [])
  then n ∈ synonym_hits schema term
  else n ∈ direct_hits schema term.
Proof.
  unfold discover_term.
  set (acc1 := match_loop _ _ _ (∅, [])).
  assert (∀ x, x ∈ acc1.1 ↔ x ∈ direct_hits schema term) as Hdirect.
  { intros x. unfold acc1, direct_hits.
    rewrite match_loop_matches, elem_of_hits. set_solver. }
  pose proof (set_empty_iff_no_elem _ _ Hdirect) as Hempty.
  set (acc2 := match custom_synonyms !! Py.lower term with
               | Some _ => _ | None => _ end).
  assert (∀ x, x ∈ acc2.1 ↔
               if decide (direct_hits schema term = [])
               then x ∈ synonym_hits schema term
               else x ∈ direct_hits schema term) as Hacc2.
  { intros x. unfold acc2, synonym_hits.
    destruct (custom_synonyms !! Py.lower term) as [synonyms|]; simpl.
    - destruct (decide (acc1.1 = ∅)) as [He|Hne].
      + rewrite decide_True by by apply Hempty.
        rewrite synonym_loop_matches, He. set_solver.
      + rewrite decide_False by (by rewrite <- Hempty). apply Hdirect.
    - case_decide as Hd; [|apply Hdirect].
      rewrite Hdirect, Hd. split; intros Hx; by apply elem_of_nil in Hx. }
  assert ((if decide (acc2.1 = ∅) then
             match get_close_matches (Py.lower term)
                     (map Py.lower (search_space schema)) with
             | [] => acc2
             | _ :: _ =>
                 (acc2.1,
                  acc2.2 ++ ["Possible matches: " +:+
                             Py.join ", "
                               (map backquoted
                                  (get_close_matches (Py.lower term)
                                     (map Py.lower (search_space schema))))])
             end
           else acc2).1 = acc2.1) as ->; [|apply Hacc2].
  destruct (decide (acc2.1 = ∅)); [|reflexivity].
  by destruct (get_close_matches _ _).
Qed.



End DiscoveryFacts.


(** ** The properties at sample inputs *)





(** C3, counterexample.  Without a connection the outcome of a well-formed
    SELECT is an error, not a warning. *)
Lemma disconnected_outcome_is_error :
  status (execute_select (engine_on None) "SELECT 1").1 = "error" ∧
  status (execute_select (engine_on None) "SELECT 1").1 ≠ "warning".
Proof. split; [reflexivity|discriminate]. Qed.

(** C3 at an engine that was never connected. *)
Lemma no_connection_is_error_witness :
  conn (engine_on None) = None ∧
  execute_select (engine_on None) "SELECT 1"
    = (mk_result "error" None "Not connected to database", []).
Proof.
  split; [reflexivity|].
  apply (no_connection_is_error (engine_on None) "SELECT 1"). reflexivity.
Defined.

(** C4 at the model of Orders and Customers. *)
Lemma join_path_follows_relationships_witness :
  find_join_path 2 orders_customers ["Orders"; "Customers"]
    = Some (Some [("Orders", "Customers", "CustomerID", "CustomerID")]) ∧
  Forall (real_edge orders_customers)
    [("Orders", "Customers", "CustomerID", "CustomerID")].
Proof.
  assert (find_join_path 2 orders_customers ["Orders"; "Customers"]
          = Some (Some [("Orders", "Customers", "CustomerID", "CustomerID")]))
    as Hrun by (vm_compute; reflexivity).
  split; [exact Hrun|].
  exact (proj1 join_path_follows_relationships orders_customers 2
           ["Orders"; "Customers"] _ Hrun).
Defined.

(** Without relationships no table is connected to another one. *)
Lemma islands_apart : ¬ connected islands "A" "B".
Proof.
  intros H. apply rtc_inv in H as [[=]|(y & [Hadj|Hadj] & _)];
    destruct Hadj as (lc & rc & Hin); unfold rels in Hin; simpl in Hin;
    rewrite lookup_empty in Hin; by apply elem_of_nil in Hin.
Qed.

(** C5 at a ring of three tables, all three requested. *)
Lemma find_join_path_terminates_witness :
  ∃ fuel r, ∀ m, fuel ≤ m → find_join_path m ring ["A"; "C"; "B"] = Some r.
Proof. exact (find_join_path_terminates ring ["A"; "C"; "B"]). Defined.

(** C6 at a single table and at two unrelated tables. *)
Lemma find_join_path_none_witness :
  find_join_path 0 islands ["A"] = Some None ∧
  ∃ fuel, ∀ m, fuel ≤ m → find_join_path m islands ["A"; "B"] = Some None.
Proof.
  split.
  - apply (proj1 find_join_path_none islands 0 ["A"]). simpl. lia.
  - apply (proj1 (proj2 find_join_path_none) islands "A" "B" ["B"]).
    + apply list_elem_of_singleton. reflexivity.
    + exact islands_apart.
Defined.

(** C10 at a request that names the same table three times. *)
Lemma find_join_path_repeated_start_witness :
  find_join_path 1 ring ["A"; "A"; "A"] = Some (Some []).
Proof.
  apply (proj2 find_join_path_repeated_start ring "A" ["A"; "A"] 0).
  - discriminate.
  - intros x Hx. apply elem_of_cons in Hx as [->|Hx]; [reflexivity|].
    apply list_elem_of_singleton in Hx. exact Hx.
Defined.

(** C7, counterexample.  With the table list read and every PRAGMA
    raising, [get_schema] keeps the listed table: the schema returned is
    not empty. *)
Lemma pragma_failure_keeps_tables :
  (∃ e, execute pragma_denied (table_info_query "t") = inl e) ∧
  (∃ e, execute pragma_denied (foreign_key_query "t") = inl e) ∧
  tables (get_schema (engine_on (Some pragma_denied))).1 = ["t"] ∧
  (get_schema (engine_on (Some pragma_denied))).1 ≠ empty_schema.
Proof.
  split; [by eexists|]. split; [by eexists|].
  split; [vm_compute; reflexivity|].
  intros H. apply (f_equal tables) in H. vm_compute in H. discriminate.
Qed.

(** C7 at a backend that raises on every catalog query. *)
Lemma introspection_absorbs_failures_witness :
  get_schema (engine_on (Some raising))
    = (empty_schema, engine_on (Some raising)).
Proof.
  exact (proj1 (introspection_absorbs_failures (engine_on (Some raising))
                  raising eq_refl eq_refl) _ eq_refl).
Defined.



(** ** More about the word search and the safety gate *)

Section GateFacts.

Lemma gate_passes_no_keyword cleaned :
  from_option Py.truthy false (contains_dangerous_sql cleaned) = false →
  contains_dangerous_sql cleaned = None.
Proof.
  destruct (contains_dangerous_sql cleaned) as [w|] eqn:E; [|done].
  apply contains_dangerous_sql_some in E as [Hw _].
  apply dangerous_capital in Hw as [Hne _]%andb_prop. simpl. congruence.
Qed.

Lemma prefix_append s x : String.prefix s (s +:+ x) = true.
Proof.
  induction s as [|c r IH]; [by destruct x|].
  change (String.prefix (String c r) (String c (r +:+ x)) = true).
  simpl. by destruct (ascii_dec c c).
Qed.

Lemma prefix_refl s : String.prefix s s = true.
Proof. induction s as [|c r IH]; simpl; [done|]. by destruct (ascii_dec c c). Qed.

Lemma no_keyword_no_occurrence sql w :
  contains_dangerous_sql sql = None → w ∈ dangerous → ¬ occurs_as_word w sql.
Proof.
  intros Hnone Hw Hocc.
  pose proof (search_word_complete _ _ (dangerous_capital _ Hw) Hocc) as Hs.
  destruct (contains_dangerous_sql_finds _ _ Hw Hs) as [w' Hw']. congruence.
Qed.

Lemma annotate_keeps_message msg : String.prefix msg (annotate msg) = true.
Proof.
  unfold annotate.
  repeat (case_match; [apply prefix_append|]). apply prefix_refl.
Qed.

End GateFacts.

(** X1.  On ASCII text [contains_dangerous_sql] reports a keyword exactly
    when one of the denylisted words stands in the text as a whole word, in
    any letter case: it returns None if and only if none does, and the word
    it returns occurs while no earlier entry of the denylist does. *)
Theorem denylist_scan_exact (sql : string) :
  ascii_text sql = true →
  (contains_dangerous_sql sql = None ↔
   ∀ w, w ∈ dangerous → ¬ occurs_as_word w sql) ∧
  (∀ w, contains_dangerous_sql sql = Some w →
        occurs_as_word w sql ∧
        ∃ before after,
          dangerous = before ++ w :: after ∧
          Forall (λ w', ¬ occurs_as_word w' sql) before).
Proof.
  intros _. split.
  - split.
    + intros Hnone w Hw. by apply no_keyword_no_occurrence.
    + intros Hall. destruct (contains_dangerous_sql sql) as [w|] eqn:E; [|done].
      apply contains_dangerous_sql_some in E as [Hw Hs].
      destruct (Hall w Hw). by apply search_word_sound; [apply dangerous_capital|].
  - intros w. apply contains_dangerous_sql_first.
Qed.

(** X2.  Whatever [execute_select] hands to the backend for a raw SQL
    string of ASCII characters has passed every test of the gate: it is the
    one statement left after comment stripping, holds no semicolon apart
    from trailing ones, holds no denylisted word as a whole word in any
    letter case, and begins with SELECT in any letter case. *)
Theorem backend_sees_only_vetted_select (self : DatabaseEngine)
    (sql stmt : string) :
  ascii_text sql = true →
  stmt ∈ (execute_select self sql).2 →
  (execute_select self sql).2 = [stmt] ∧
  stmt = strip_sql_comments sql ∧
  Py.contains ";" (Py.rstrip_semi stmt) = false ∧
  (∀ w, w ∈ dangerous → ¬ occurs_as_word w stmt) ∧
  Py.startswith (Py.strip (Py.upper stmt)) "SELECT" = true.
Proof.
  intros _. unfold execute_select.
  destruct (conn self) as [c|]; [|by intros ?%elem_of_nil].
  destruct (negb (Py.truthy (Py.strip sql))); [by intros ?%elem_of_nil|].
  destruct (Py.contains ";" (Py.rstrip_semi (strip_sql_comments sql))) eqn:Hsemi;
    [by intros ?%elem_of_nil|].
  destruct (from_option Py.truthy false
              (contains_dangerous_sql (strip_sql_comments sql))) eqn:Hkw;
    [by intros ?%elem_of_nil|].
  destruct (negb (Py.startswith (Py.strip (Py.upper (strip_sql_comments sql)))
                    "SELECT")) eqn:Hsel; [by intros ?%elem_of_nil|].
  apply negb_false_iff in Hsel.
  apply gate_passes_no_keyword in Hkw.
  intros Hin.
  destruct (read_sql_query c (strip_sql_comments sql)) as [e|d];
    [|destruct (df_empty d)]; simpl in Hin;
    apply list_elem_of_singleton in Hin as ->;
    (split; [done|]); (split; [done|]); (split; [done|]); (split; [|done]);
    intros w Hw; by apply no_keyword_no_occurrence.
Qed.

(** X3.  The outcome of [execute_select] is of one of three kinds and never
    half filled: a success carries a table and the one statement sent to the
    backend; a warning carries no table and nothing was sent; an error
    carries no table, and nothing was sent exactly when there is no
    connection. *)
Theorem outcome_is_one_of_three (self : DatabaseEngine) (sql : string) :
  let result := (execute_select self sql).1 in
  let sent := (execute_select self sql).2 in
  (status result = "success" ∧ is_Some (df result) ∧
   sent = [strip_sql_comments sql]) ∨
  (status result = "warning" ∧ df result = None ∧ sent = []) ∨
  (status result = "error" ∧ df result = None ∧
   (sent = [] ↔ conn self = None)).
Proof.
  unfold execute_select. destruct (conn self) as [c|]; simpl.
  - repeat (case_match; simpl; eauto 10).
    right; right. repeat split; done.
  - right; right. done.
Qed.

(** X4.  Once a statement has passed the gate the outcome is the backend's:
    a table delivered becomes a success carrying that table, and an
    exception becomes an error whose message begins with the backend's own
    message, hints being added after it only. *)
Theorem admitted_statement_outcome (self : DatabaseEngine) (c : Connection)
    (sql : string) :
  conn self = Some c →
  (execute_select self sql).2 ≠ [] →
  match read_sql_query c (strip_sql_comments sql) with
  | inr d =>
      status (execute_select self sql).1 = "success" ∧
      df (execute_select self sql).1 = Some d
  | inl e =>
      status (execute_select self sql).1 = "error" ∧
      df (execute_select self sql).1 = None ∧
      String.prefix (exn_msg e) (message (execute_select self sql).1) = true
  end.
Proof.
  intros Hconn. unfold execute_select. rewrite Hconn.
  repeat (case_match; simpl; try done).
  intros _. repeat split. apply annotate_keeps_message.
Qed.

(** X5.  A refusal of the gate does not depend on the backend: when nothing
    was sent on one live connection, the outcome is the same on every other
    live connection. *)
Theorem refusal_ignores_backend (self other : DatabaseEngine) (sql : string) :
  is_Some (conn self) → is_Some (conn other) →
  (execute_select self sql).2 = [] →
  execute_select other sql = execute_select self sql.
Proof.
  intros [c Hc] [c' Hc']. unfold execute_select. rewrite Hc, Hc'.
  repeat (case_match; simpl; try done).
Qed.

Lemma execute_select_one (self : DatabaseEngine) (c : Connection) :
  conn self = Some c →
  execute_select self "SELECT 1" =
  match read_sql_query c "SELECT 1" with
  | inr d =>
      if df_empty d then
        (mk_result "success" (Some d)
           "Query ran successfully but returned no rows.", ["SELECT 1"])
      else
        (mk_result "success" (Some d)
           ("Query executed successfully. Returned " +:+
            Py.str_nat (length (df_rows d)) +:+ " row(s)."), ["SELECT 1"])
  | inl e => (mk_result "error" None (annotate (exn_msg e)), ["SELECT 1"])
  end.
Proof. intros Hconn. unfold execute_select. rewrite Hconn. reflexivity. Qed.

(** X6.  [test_connection] reports a live connection exactly when there is
    a connection whose backend answers SELECT 1 with a table: the probe
    passes the gate, and an empty answer still counts. *)
Theorem test_connection_alive_iff (self : DatabaseEngine) :
  (test_connection self).1 = true ↔
  ∃ c d, conn self = Some c ∧ read_sql_query c "SELECT 1" = inr d.
Proof.
  unfold test_connection. destruct (conn self) as [c|] eqn:Hconn; simpl.
  - rewrite (execute_select_one self c Hconn).
    destruct (read_sql_query c "SELECT 1") as [e|d] eqn:Hq.
    + simpl. split; [done|]. intros (c' & d & [= <-] & Hd). congruence.
    + split; [eauto|]. intros _. by destruct (df_empty d).
  - split; [done|]. by intros (c & d & ? & _).
Qed.

(** X7.  After [disconnect], whatever closing the connection did, the
    engine has no connection and no cached schema: [get_schema] returns
    the empty schema even if one was cached before, [execute_select]
    refuses every statement without a backend, and [test_connection]
    reports no active connection. *)
Theorem disconnect_forgets_everything (close : Connection → Exn + unit)
    (self : DatabaseEngine) (sql : string) :
  let off := disconnect close self in
  conn off = None ∧ _schema_cache off = None ∧
  get_schema off = (empty_schema, off) ∧
  execute_select off sql
    = (mk_result "error" None "Not connected to database", []) ∧
  test_connection off = (false, "No active connection") ∧
  disconnect close off = off.
Proof.
  assert (conn (disconnect close self) = None) as Hoff.
  { unfold disconnect. by destruct (conn self) eqn:E; simpl; rewrite ?E. }
  assert (_schema_cache (disconnect close self) = None) as Hcache
    by reflexivity.
  cbv zeta. split; [done|]. split; [done|].
  unfold get_schema, execute_select, test_connection.
  rewrite Hcache, Hoff. repeat split.
  destruct (disconnect close self) as [co d n ca]. simpl in *. subst.
  reflexivity.
Qed.

Lemma get_schema_cached (self : DatabaseEngine) s :
  _schema_cache (get_schema self).2 = Some s → (get_schema self).1 = s.
Proof.
  unfold get_schema. destruct (_schema_cache self) as [s0|] eqn:Hc; simpl.
  - rewrite Hc. by intros [= ->].
  - destruct (conn self) as [c|]; simpl; [|by rewrite Hc].
    destruct (execute c master_query) as [e|rows]; simpl; [by rewrite Hc|].
    destruct (comprehension _ rows); simpl; [by rewrite Hc|]. by intros [= <-].
Qed.

Lemma get_schema_fresh (self other : DatabaseEngine) c :
  conn self = Some c → conn other = Some c →
  _schema_cache self = None → _schema_cache other = None →
  (get_schema self).1 = (get_schema other).1.
Proof.
  intros H1 H2 H3 H4. unfold get_schema. rewrite H1, H2, H3, H4.
  destruct (execute c master_query) as [e|rows]; simpl; [reflexivity|].
  destruct (comprehension _ rows); reflexivity.
Qed.

(** X8.  A schema that [get_schema] has cached is what it returns from then
    on, without reading the catalog, even when the backend behind the
    engine has changed; [refresh_schema] on the same engine reads the
    backend as an engine without a cache does; and [get_schema] never
    touches the connection, the dialect or the name. *)
Theorem cached_schema_is_served (self : DatabaseEngine) (c' : Connection) :
  (is_Some (_schema_cache (get_schema self).2) →
   get_schema (on_backend c' (get_schema self).2)
     = ((get_schema self).1, on_backend c' (get_schema self).2)) ∧
  (refresh_schema (on_backend c' (get_schema self).2)).1
    = (get_schema (on_backend c' (engine_on None))).1 ∧
  conn (get_schema self).2 = conn self ∧
  dialect (get_schema self).2 = dialect self ∧
  name (get_schema self).2 = name self.
Proof.
  split; [|split].
  - intros [s Hs]. pose proof (get_schema_cached _ _ Hs) as ->.
    unfold get_schema at 1. simpl. by rewrite Hs.
  - unfold refresh_schema. by apply (get_schema_fresh _ _ c').
  - unfold get_schema. repeat (case_match; simpl; try done).
Qed.

(** ** Trimming and comment stripping *)

Section Trimming.

Variable p : ascii → bool.

Lemma rstrip_by_idem s : Py.rstrip_by p (Py.rstrip_by p s) = Py.rstrip_by p s.
Proof.
  induction s as [|c r IH]; simpl; [done|].
  destruct (Py.rstrip_by p r) as [|c' r'] eqn:E.
  - destruct (p c) eqn:Hc; simpl; [done|]. by rewrite Hc.
  - simpl in *. by rewrite IH.
Qed.

Lemma rstrip_by_head s :
  Py.rstrip_by p s ≠ EmptyString → Re.head (Py.rstrip_by p s) = Re.head s.
Proof.
  destruct s as [|c r]; simpl; [done|].
  destruct (Py.rstrip_by p r); [|done]. by destruct (p c).
Qed.

Lemma rstrip_by_last s :
  from_option p false (last_char (Py.rstrip_by p s)) = false.
Proof.
  induction s as [|c r IH]; simpl; [done|].
  destruct (Py.rstrip_by p r) as [|c' r'] eqn:E.
  - destruct (p c) eqn:Hc; simpl; [done|]. by rewrite Hc.
  - simpl in *. by destruct (last_char r').
Qed.

Lemma lstrip_by_head s :
  from_option p false (Re.head (Py.lstrip_by p s)) = false.
Proof.
  induction s as [|c r IH]; simpl; [done|].
  destruct (p c) eqn:Hc; simpl; [done|]. by rewrite Hc.
Qed.

Lemma lstrip_by_fixed s :
  from_option p false (Re.head s) = false → Py.lstrip_by p s = s.
Proof. destruct s as [|c r]; simpl; [done|]. by intros ->. Qed.

Lemma strip_by_fixed s :
  let t := Py.rstrip_by p (Py.lstrip_by p s) in
  Py.rstrip_by p (Py.lstrip_by p t) = t ∧
  from_option p false (Re.head t) = false ∧
  from_option p false (last_char t) = false.
Proof.
  intros t.
  assert (from_option p false (Re.head t) = false) as Hhead.
  { unfold t. destruct (Py.rstrip_by p (Py.lstrip_by p s)) eqn:E; [done|].
    rewrite <- E, rstrip_by_head by (by rewrite E). apply lstrip_by_head. }
  split; [|split; [done|apply rstrip_by_last]].
  rewrite lstrip_by_fixed by done. apply rstrip_by_idem.
Qed.

End Trimming.

(** X9.  The text [strip_sql_comments] returns is trimmed: it has no white
    space at its start or at its end, and stripping it again changes
    nothing. *)
Theorem cleaned_text_is_trimmed (sql : string) :
  Py.strip (strip_sql_comments sql) = strip_sql_comments sql ∧
  from_option Py.isspace false (Re.head (strip_sql_comments sql)) = false ∧
  from_option Py.isspace false (last_char (strip_sql_comments sql)) = false.
Proof. apply (strip_by_fixed Py.isspace). Qed.

Section LineComments.

Lemma sub_line_comments_head c r :
  Ascii.eqb c "-" = false →
  Re.head (Re.sub_line_comments false (String c r)) = Some c.
Proof.
  intros Hc. simpl. destruct r as [|c' r']; [done|]. by rewrite Hc.
Qed.

Lemma prefix_cons a p b s :
  String.prefix (String a p) (String b s) = Ascii.eqb a b && String.prefix p s.
Proof.
  cbn [String.prefix]. destruct (ascii_dec a b) as [->|Hne].
  - by rewrite Ascii.eqb_refl.
  - by apply Ascii.eqb_neq in Hne as ->.
Qed.

Lemma contains_dashes_cons c s :
  Py.contains "--" (String c s)
  = (Ascii.eqb c "-" && from_option (λ x, Ascii.eqb x "-") false (Re.head s))
    || Py.contains "--" s.
Proof.
  cbn [Py.contains]. f_equal. rewrite prefix_cons, (Ascii.eqb_sym "-" c).
  f_equal. destruct s as [|x s']; [done|].
  rewrite prefix_cons, (Ascii.eqb_sym "-" x).
  replace (String.prefix EmptyString s') with true by (by destruct s').
  apply andb_true_r.
Qed.

Lemma sub_line_comments_no_dashes s : ∀ b,
  Py.contains "--" (Re.sub_line_comments b s) = false.
Proof.
  induction s as [|c r IH]; intros b; [by destruct b|].
  destruct b.
  - simpl. destruct (Ascii.eqb c "010") eqn:Hnl; [|apply IH].
    rewrite contains_dashes_cons, IH.
    apply Ascii.eqb_eq in Hnl as ->. done.
  - destruct r as [|c' r'].
    + cbn [Re.sub_line_comments]. by rewrite contains_dashes_cons, andb_false_r.
    + change (Re.sub_line_comments false (String c (String c' r')))
        with (if Ascii.eqb c "-" && Ascii.eqb c' "-"
              then Re.sub_line_comments true r'
              else String c (Re.sub_line_comments false (String c' r'))).
      destruct (Ascii.eqb c "-") eqn:Hc; destruct (Ascii.eqb c' "-") eqn:Hc';
        cbn [andb].
      * specialize (IH true). apply Ascii.eqb_eq in Hc' as ->. exact IH.
      * rewrite contains_dashes_cons, (IH false), sub_line_comments_head by done.
        cbn [from_option]. by rewrite Hc', andb_false_r.
      * by rewrite contains_dashes_cons, (IH false), Hc.
      * by rewrite contains_dashes_cons, (IH false), Hc.
Qed.

Lemma sub_line_comments_line_feeds s : ∀ b,
  count_char "010" (Re.sub_line_comments b s) = count_char "010" s.
Proof.
  induction s as [|c r IH]; intros b; [by destruct b|].
  destruct b.
  - simpl. destruct (Ascii.eqb c "010") eqn:Hnl; simpl; rewrite ?Hnl, IH; done.
  - destruct r as [|c' r']; [done|].
    change (Re.sub_line_comments false (String c (String c' r')))
      with (if Ascii.eqb c "-" && Ascii.eqb c' "-"
            then Re.sub_line_comments true r'
            else String c (Re.sub_line_comments false (String c' r'))).
    destruct (Ascii.eqb c "-" && Ascii.eqb c' "-") eqn:Hcc.
    + apply andb_prop in Hcc as [->%Ascii.eqb_eq ->%Ascii.eqb_eq].
      specialize (IH true). simpl in IH. simpl. exact IH.
    + cbn [count_char]. by rewrite (IH false).
Qed.

End LineComments.

(** X10.  The removal of line comments leaves no [--] in the text and
    takes no line feed away, so the lines of the statement stay apart. *)
Theorem line_comments_are_gone (sql : string) :
  Py.contains "--" (Re.sub_line_comments false sql) = false ∧
  count_char "010" (Re.sub_line_comments false sql) = count_char "010" sql.
Proof.
  split; [apply sub_line_comments_no_dashes|apply sub_line_comments_line_feeds].
Qed.

(** ** Quoting, limits and sorting *)

Section Rendering.

Lemma append_length (a b : string) :
  String.length (a +:+ b) = String.length a + String.length b.
Proof.
  induction a as [|c a IH]; [done|].
  change (S (String.length (a +:+ b)) = S (String.length a + String.length b)).
  by rewrite IH.
Qed.

Lemma append_cancel_r (a b x : string) : a +:+ x = b +:+ x → a = b.
Proof.
  revert b. induction a as [|c a IH]; intros [|d b] H.
  - done.
  - apply (f_equal String.length) in H. rewrite !append_length in H.
    cbn [String.length] in H. lia.
  - apply (f_equal String.length) in H. rewrite !append_length in H.
    cbn [String.length] in H. lia.
  - change (String c (a +:+ x) = String d (b +:+ x)) in H.
    injection H as -> H. f_equal. by apply IH.
Qed.

Lemma append_cancel_char (c : ascii) (a b : string) :
  String c EmptyString +:+ a = String c EmptyString +:+ b → a = b.
Proof. intros H. change (String c a = String c b) in H. by injection H. Qed.

End Rendering.

(** X11.  Quoting loses nothing and never yields the empty text: for each
    dialect two identifiers with the same quoted form are the same
    identifier; SQL Server, MySQL and the double-quote dialects quote the
    same identifier differently, SQLite and PostgreSQL alike. *)
Theorem quoting_is_faithful :
  (∀ (d : SQLDialect) (a b : string), q a d = q b d → a = b) ∧
  (∀ (d : SQLDialect) (a : string), q a d ≠ EmptyString) ∧
  (∀ a : string,
     q a SQLSERVER ≠ q a MYSQL ∧ q a SQLSERVER ≠ q a SQLITE ∧
     q a MYSQL ≠ q a SQLITE ∧ q a SQLITE = q a POSTGRES).
Proof.
  split; [|split].
  - intros d a b H.
    destruct d; unfold q in H; simpl in H;
      apply append_cancel_char in H; by apply append_cancel_r in H.
  - intros d a. by destruct d.
  - intros a. by repeat split.
Qed.

(** X12.  A row limit other than zero is carried by exactly one of the two
    fragments: on SQL Server by the SELECT TOP opener, with an empty
    closing fragment, on the other dialects by the closing LIMIT, with a
    bare SELECT opener.  A limit of zero, like a missing one, leaves the
    SQL Server opener bare, so that no fragment limits the rows. *)
Theorem limit_is_rendered_once (d : SQLDialect) (n : Z) :
  (n ≠ 0%Z →
   if decide (d = SQLSERVER)
   then render_select d (Some n) = "SELECT TOP " +:+ Py.str_int n ∧
        render_limit d n = EmptyString
   else render_select d (Some n) = "SELECT" ∧
        render_limit d n = "LIMIT " +:+ Py.str_int n) ∧
  render_select SQLSERVER (Some 0%Z) = "SELECT" ∧
  render_limit SQLSERVER 0 = EmptyString ∧
  render_select d None = "SELECT".
Proof.
  split; [|done]. intros Hn.
  unfold render_select, render_limit.
  apply Z.eqb_neq in Hn. rewrite Hn. by destruct d.
Qed.

Section Sorting.

Lemma insert_sorted_perm x l : insert_sorted x l ≡ₚ x :: l.
Proof.
  induction l as [|y r IH]; simpl; [done|].
  destruct (String.leb x y); [done|]. rewrite IH. apply Permutation_swap.
Qed.

Lemma insert_sorted_hd x y l :
  str_le y x → HdRel str_le y l → HdRel str_le y (insert_sorted x l).
Proof.
  intros Hyx Hl. destruct l as [|z r]; simpl; [by constructor|].
  destruct (String.leb x z); constructor; [done|]. by inversion Hl.
Qed.

Lemma insert_sorted_sorted x l :
  Sorted str_le l → Sorted str_le (insert_sorted x l).
Proof.
  induction 1 as [|y r Hr IH Hhd]; simpl; [by repeat constructor|].
  destruct (String.leb x y) eqn:E.
  - constructor; [by constructor|]. by constructor.
  - constructor; [done|]. apply insert_sorted_hd; [|done].
    destruct (String.leb_total x y) as [H|H]; [congruence|done].
Qed.

End Sorting.

(** X13.  [get_tables] returns the tables of the model in ascending order:
    the same names, each as often as it is listed, none lost or added. *)
Theorem get_tables_sorted (self : DatabaseSchema) :
  Sorted str_le (get_tables self) ∧ get_tables self ≡ₚ tables self.
Proof.
  unfold get_tables, sorted. induction (tables self) as [|x l [IHs IHp]]; simpl.
  - split; [constructor|done].
  - split; [by apply insert_sorted_sorted|].
    by rewrite insert_sorted_perm, IHp.
Qed.

(** ** Splitting input and identifiers *)

Section Splitting.

Lemma split_by_cons sep s : ∃ piece pieces, split_by sep s = piece :: pieces.
Proof.
  induction s as [|c r (piece & pieces & IH)]; simpl; [eauto|].
  destruct (sep c); [eauto|]. rewrite IH. eauto.
Qed.

Lemma split_by_pieces sep s piece :
  piece ∈ split_by sep s → all_chars (λ c, negb (sep c)) piece = true.
Proof.
  revert piece. induction s as [|c r IH]; intros piece; simpl.
  - by intros ->%list_elem_of_singleton.
  - destruct (sep c) eqn:Hc.
    + intros [->|Hin]%elem_of_cons; [done|]. by apply IH.
    + destruct (split_by_cons sep r) as (x & xs & Hx). rewrite Hx in *.
      intros [->|Hin]%elem_of_cons.
      * simpl. rewrite Hc. simpl. apply IH. left.
      * apply IH. by right.
Qed.

Lemma join_split (x : ascii) s :
  Py.join (String x EmptyString) (split_by (λ c, Ascii.eqb c x) s) = s.
Proof.
  induction s as [|c r IH]; simpl; [done|].
  destruct (split_by_cons (λ c, Ascii.eqb c x) r) as (piece & pieces & Hx).
  rewrite Hx in *. destruct (Ascii.eqb c x) eqn:Hc.
  - apply Ascii.eqb_eq in Hc as ->.
    change (String x (Py.join (String x EmptyString) (piece :: pieces)) = String x r).
    by rewrite IH.
  - cbn [Py.join] in *. destruct pieces as [|y ys]; [by rewrite IH|].
    change (String c (piece +:+ String x EmptyString
                      +:+ Py.join (String x EmptyString) (y :: ys)) = String c r).
    by rewrite IH.
Qed.

Lemma all_chars_lstrip_by (P p : ascii → bool) s :
  all_chars P s = true → all_chars P (Py.lstrip_by p s) = true.
Proof.
  induction s as [|c r IH]; simpl; [done|].
  intros [Hc Hr]%andb_prop. destruct (p c); [auto|]. simpl. by rewrite Hc, Hr.
Qed.

Lemma all_chars_rstrip_by (P p : ascii → bool) s :
  all_chars P s = true → all_chars P (Py.rstrip_by p s) = true.
Proof.
  induction s as [|c r IH]; simpl; [done|].
  intros [Hc Hr]%andb_prop. specialize (IH Hr).
  destruct (Py.rstrip_by p r).
  - destruct (p c); [done|]. simpl. by rewrite Hc.
  - simpl in *. by rewrite Hc, IH.
Qed.

Lemma contains_char (x : ascii) s :
  Py.contains (String x EmptyString) s
  = negb (all_chars (λ c, negb (Ascii.eqb c x)) s).
Proof.
  induction s as [|c r IH]; [done|].
  change (String.prefix (String x EmptyString) (String c r)
          || Py.contains (String x EmptyString) r
          = negb (negb (Ascii.eqb c x)
                  && all_chars (λ c, negb (Ascii.eqb c x)) r)).
  rewrite IH, (prefix_cons x EmptyString c r).
  replace (String.prefix EmptyString r) with true by (by destruct r).
  rewrite (Ascii.eqb_sym x c). by destruct (Ascii.eqb c x), (all_chars _ r).
Qed.

Lemma stripped_nonempty_spec sep s t :
  t ∈ stripped_nonempty (split_by sep s) →
  t ≠ EmptyString ∧ Py.strip t = t ∧ all_chars (λ c, negb (sep c)) t = true.
Proof.
  unfold stripped_nonempty. rewrite list_elem_of_fmap.
  intros (piece & -> & [Htruthy Hin]%list_elem_of_filter).
  split; [by intros E; rewrite E in Htruthy|].
  split; [apply (strip_by_fixed Py.isspace)|].
  apply all_chars_rstrip_by, all_chars_lstrip_by. by eapply split_by_pieces.
Qed.

Lemma split_dot_none s :
  split_dot s = None ↔ Py.contains "." s = false.
Proof.
  rewrite contains_char, negb_false_iff.
  induction s as [|c r IH]; simpl; [done|].
  destruct (Ascii.eqb c ".") eqn:Hc; simpl; [done|].
  rewrite <- IH. by destruct (split_dot r) as [[a b]|].
Qed.

Lemma split_dot_some s a b :
  split_dot s = Some (a, b) →
  s = a +:+ "." +:+ b ∧ Py.contains "." a = false.
Proof.
  rewrite contains_char, negb_false_iff.
  revert a. induction s as [|c r IH]; intros a; simpl; [done|].
  destruct (Ascii.eqb c ".") eqn:Hc.
  - apply Ascii.eqb_eq in Hc as ->. by intros [= <- <-].
  - destruct (split_dot r) as [[a' b']|]; [|done].
    intros [= <- <-]. destruct (IH a' eq_refl) as [-> Ha].
    split; [done|]. simpl. by rewrite Hc.
Qed.

Lemma split_dot_join a b :
  Py.contains "." a = false → split_dot (a +:+ "." +:+ b) = Some (a, b).
Proof.
  rewrite contains_char, negb_false_iff.
  induction a as [|c r IH]; [done|]. simpl.
  intros [Hc Hr]%andb_prop. apply negb_true_iff in Hc.
  change (String c r +:+ "." +:+ b) with (String c (r +:+ "." +:+ b)).
  simpl. by rewrite Hc, IH.
Qed.

Lemma elem_of_search_space schema n :
  n ∈ search_space schema →
  ∃ t, t ∈ tables schema ∧
       (n = t ∨ ∃ col, col ∈ get_columns schema t ∧ n = t +:+ "." +:+ col).
Proof.
  unfold search_space. rewrite list_elem_of_In, in_flat_map.
  intros (t & Ht & Hn). exists t.
  apply list_elem_of_In in Ht. unfold get_tables in Ht.
  apply (proj1 (elem_of_sorted _ _)) in Ht. split; [exact Ht|].
  destruct Hn as [<-|Hn]; [by left|]. right.
  apply in_map_iff in Hn as (col & <- & Hcol%list_elem_of_In). eauto.
Qed.

Lemma discover_term_in_space gcm schema term n :
  n ∈ (discover_term gcm schema term).1 → n ∈ search_space schema.
Proof.
  rewrite discover_term_matches. case_decide.
  - unfold synonym_hits. rewrite list_elem_of_In, in_flat_map.
    intros (syn & _ & Hn%list_elem_of_In). by apply elem_of_hits in Hn as [? _].
  - unfold direct_hits. by intros [? _]%elem_of_hits.
Qed.

Lemma add_discovered_tables_elem acc matches x :
  x ∈ add_discovered_tables acc matches ↔
  x ∈ acc ∨ ∃ m, m ∈ matches ∧
                 x = match split_dot m with Some (t, _) => t | None => m end.
Proof.
  unfold add_discovered_tables.
  assert (∀ m, m ∈ matches ↔ m ∈ sorted (elements matches)) as Hl.
  { intros m. by rewrite elem_of_sorted, elem_of_elements. }
  setoid_rewrite Hl. clear Hl.
  generalize (sorted (elements matches)). intros l. revert acc.
  induction l as [|m l IH]; intros acc; simpl.
  - split; [auto|]. intros [?|(m & Hm & _)]; [done|]. by apply elem_of_nil in Hm.
  - rewrite IH. setoid_rewrite elem_of_cons.
    destruct (split_dot m) as [[t col]|] eqn:E.
    + rewrite elem_of_union, elem_of_singleton. split.
      * intros [[->|?]|(m' & ? & ->)]; eauto.
        right. exists m. by rewrite E; auto.
      * intros [?|(m' & [->|?] & ->)]; eauto. rewrite E. auto.
    + rewrite elem_of_union, elem_of_singleton. split.
      * intros [[->|?]|(m' & ? & ->)]; eauto.
        right. exists m. by rewrite E; auto.
      * intros [?|(m' & [->|?] & ->)]; eauto. rewrite E. auto.
Qed.

Lemma lower_upper s : Py.lower (Py.upper s) = Py.lower s.
Proof.
  induction s as [|c r IH]; [done|]. cbn. f_equal; [|exact IH].
  pose proof (ascii_forall
    (λ c, Ascii.eqb (Py.lower_char (Py.upper_char c)) (Py.lower_char c))
    ltac:(vm_compute; reflexivity) c) as H.
  by apply Ascii.eqb_eq in H.
Qed.

Lemma lower_lower s : Py.lower (Py.lower s) = Py.lower s.
Proof.
  induction s as [|c r IH]; [done|]. cbn. f_equal; [|exact IH].
  pose proof (ascii_forall
    (λ c, Ascii.eqb (Py.lower_char (Py.lower_char c)) (Py.lower_char c))
    ltac:(vm_compute; reflexivity) c) as H.
  by apply Ascii.eqb_eq in H.
Qed.

End Splitting.

(** X14.  The terms read from the query builder's input and the values
    read from the value search are never empty, carry no white space at
    either end and hold none of the separating characters; and joining the
    comma-separated pieces of a text with commas gives the text back. *)
Theorem parsed_input_is_clean :
  (∀ input t, t ∈ parse_terms input →
     t ≠ EmptyString ∧ Py.strip t = t ∧ Py.contains "," t = false) ∧
  (∀ sample v, v ∈ parse_values sample →
     v ≠ EmptyString ∧ Py.strip v = v ∧
     Py.contains nl v = false ∧ Py.contains "," v = false ∧
     Py.contains ";" v = false ∧ Py.contains "|" v = false) ∧
  (∀ input, Py.join "," (split_by (λ c, Ascii.eqb c ",") input) = input).
Proof.
  split; [|split].
  - intros input t (Hne & Hstrip & Hall)%stripped_nonempty_spec.
    split; [done|]. split; [done|].
    by rewrite contains_char, negb_false_iff.
  - intros sample v (Hne & Hstrip & Hall)%stripped_nonempty_spec.
    split; [done|]. split; [done|].
    unfold nl. rewrite !contains_char, !negb_false_iff.
    repeat split; (eapply all_chars_impl; [|exact Hall]); intros c Hc;
      simpl in Hc; apply negb_true_iff in Hc;
      repeat (apply orb_false_elim in Hc as [Hc ?]);
      by apply negb_true_iff.
  - intros input. apply join_split.
Qed.

(** X15.  Splitting an identifier at its first dot undoes the joining of a
    table and a column with a dot, provided the table name has no dot of
    its own: an identifier without a dot is not split, a split one is its
    two parts joined by a dot with no dot in the first part, and joining
    then splitting gives the parts back. *)
Theorem split_dot_round_trip :
  (∀ s, split_dot s = None ↔ Py.contains "." s = false) ∧
  (∀ s a b, split_dot s = Some (a, b) →
            s = a +:+ "." +:+ b ∧ Py.contains "." a = false) ∧
  (∀ a b, Py.contains "." a = false →
          split_dot (a +:+ "." +:+ b) = Some (a, b)).
Proof.
  split; [apply split_dot_none|]. split; [apply split_dot_some|].
  apply split_dot_join.
Qed.

(** X16.  When no table name of the schema has a dot, the tables collected
    from the matches of a term are tables of the schema: a bare match is a
    listed table and a dotted match gives back the table it was built
    from. *)
Theorem discovered_tables_are_listed
    (gcm : string → list string → list string) (schema : DatabaseSchema)
    (term x : string) :
  (∀ t, t ∈ tables schema → Py.contains "." t = false) →
  x ∈ add_discovered_tables ∅ (discover_term gcm schema term).1 →
  x ∈ tables schema.
Proof.
  intros Hdots [Hx|(m & Hm & ->)]%add_discovered_tables_elem; [set_solver|].
  apply discover_term_in_space, elem_of_search_space in Hm
    as (t & Ht & [->|(col & _ & ->)]).
  - by rewrite (proj2 (split_dot_none t) (Hdots t Ht)).
  - by rewrite split_dot_join by auto.
Qed.

(** X17.  Every match of [discover_term] is an identifier of the schema,
    a listed table or a listed table joined by a dot to one of its columns;
    and the letter case of a term of ASCII characters does not matter: the
    term in capitals or in small letters gives the same matches and
    explanations. *)
Theorem discovery_matches_identifiers
    (gcm : string → list string → list string) (schema : DatabaseSchema)
    (term : string) :
  (∀ n, n ∈ (discover_term gcm schema term).1 →
        ∃ t, t ∈ tables schema ∧
             (n = t ∨ ∃ col, col ∈ get_columns schema t ∧
                             n = t +:+ "." +:+ col)) ∧
  (ascii_text term = true →
   discover_term gcm schema (Py.upper term) = discover_term gcm schema term ∧
   discover_term gcm schema (Py.lower term) = discover_term gcm schema term).
Proof.
  split; [|intros _; split].
  - intros n Hn. by apply elem_of_search_space, (discover_term_in_space gcm _ term).
  - unfold discover_term. by rewrite lower_upper.
  - unfold discover_term. by rewrite lower_lower.
Qed.

(** ** What introspection returns *)

Section SqliteSchema.

Variable c : Connection.

Lemma read_columns_keys tabs t :
  is_Some (read_columns c tabs !! t) ↔ t ∈ tabs.
Proof.
  split; [|intros H; rewrite read_columns_lookup by done; eauto].
  unfold read_columns. induction tabs as [|x r IH] using rev_ind.
  - simpl. rewrite lookup_empty. by intros [? ?].
  - rewrite foldl_app. simpl. rewrite elem_of_app, list_elem_of_singleton.
    destruct (decide (x = t)) as [->|Hne]; [auto|].
    rewrite lookup_insert_ne by done. auto.
Qed.

Lemma append_foreign_keys_entries t (rows0 rows : list (list string)) :
  ∀ rel k x,
  (∀ r, r ∈ rows → r ∈ rows0) →
  x ∈ default [] (append_foreign_keys t rows rel !! k) →
  x ∈ default [] (rel !! k) ∨
  (k = t ∧ ∃ r : list string,
             r ∈ rows0 ∧ r !! 2 = Some x.1.1 ∧ r !! 3 = Some x.1.2 ∧
             r !! 4 = Some x.2).
Proof.
  induction rows as [|r rest IH]; intros rel k x Hsub; simpl; [auto|].
  assert (∀ y, y ∈ rest → y ∈ rows0) as Hrest by (intros; apply Hsub; by right).
  assert (∀ held : list (string * string * string),
            x ∈ default [] (<[t:=held]> rel !! k) →
            (∀ y, y ∈ held → y ∈ default [] (rel !! t) ∨
               ∃ r : list string,
                 r ∈ rows0 ∧ r !! 2 = Some y.1.1 ∧ r !! 3 = Some y.1.2 ∧
                 r !! 4 = Some y.2) →
            x ∈ default [] (rel !! k) ∨
            (k = t ∧ ∃ r : list string,
                       r ∈ rows0 ∧ r !! 2 = Some x.1.1 ∧
                       r !! 3 = Some x.1.2 ∧ r !! 4 = Some x.2)) as Hins.
  { intros held Hx Hheld. destruct (decide (t = k)) as [->|Hne].
    - rewrite lookup_insert_eq in Hx. simpl in Hx.
      destruct (Hheld x Hx) as [?|?]; auto.
    - rewrite lookup_insert_ne in Hx by done. auto. }
  unfold row_get.
  destruct (r !! 2) as [a|] eqn:E2; simpl;
    [destruct (r !! 3) as [b|] eqn:E3; simpl;
      [destruct (r !! 4) as [d|] eqn:E4; simpl|]|];
    try (intros Hx; apply (Hins _ Hx); auto).
  intros Hx. apply IH in Hx as [Hx|Hx]; [|auto|done].
  rewrite insert_insert_eq in Hx. apply (Hins _ Hx).
  intros y [Hy|Hy]%elem_of_app; [auto|].
  apply list_elem_of_singleton in Hy as ->.
  right. exists r. split; [apply Hsub; left|done].
Qed.

Lemma read_relationships_entries tabs k x :
  x ∈ default [] (read_relationships c tabs !! k) →
  k ∈ tabs ∧
  ∃ (rows : list (list string)) (r : list string),
    execute c (foreign_key_query k) = inr rows ∧ r ∈ rows ∧
    r !! 2 = Some x.1.1 ∧ r !! 3 = Some x.1.2 ∧ r !! 4 = Some x.2.
Proof.
  unfold read_relationships. induction tabs as [|t l IH] using rev_ind.
  - simpl. rewrite lookup_empty. by intros ?%elem_of_nil.
  - rewrite foldl_app. simpl. rewrite elem_of_app, list_elem_of_singleton.
    destruct (execute c (foreign_key_query t)) as [e|rows] eqn:E.
    + intros [? ?]%IH. auto.
    + intros [Hx|[-> (r & ? & ?)]]%(append_foreign_keys_entries t rows);
        [|eauto 10|done].
      apply IH in Hx as [? ?]. auto.
Qed.

Lemma append_foreign_keys_keys t rows : ∀ rel k,
  is_Some (append_foreign_keys t rows rel !! k) → is_Some (rel !! k) ∨ k = t.
Proof.
  induction rows as [|r rest IH]; intros rel k; simpl; [auto|].
  assert (∀ held : list (string * string * string),
            is_Some (<[t:=held]> rel !! k) → is_Some (rel !! k) ∨ k = t) as Hins.
  { intros held. destruct (decide (t = k)) as [->|Hne]; [auto|].
    rewrite lookup_insert_ne by done. auto. }
  destruct (row_get r 2), (row_get r 3), (row_get r 4); try apply Hins.
  intros [H| ->]%IH; [|auto]. rewrite insert_insert_eq in H. by apply Hins in H.
Qed.

Lemma read_relationships_keys tabs k :
  is_Some (read_relationships c tabs !! k) → k ∈ tabs.
Proof.
  unfold read_relationships. induction tabs as [|t l IH] using rev_ind.
  - simpl. rewrite lookup_empty. by intros [? ?].
  - rewrite foldl_app. simpl. rewrite elem_of_app, list_elem_of_singleton.
    destruct (execute c (foreign_key_query t)) as [e|rows]; [auto|].
    intros [?| ->]%append_foreign_keys_keys; auto.
Qed.

End SqliteSchema.

(** X18.  The schema [get_schema] builds on SQLite, when none was cached,
    hangs together: exactly the listed tables have an entry of columns;
    only listed tables hold relationships; and each relationship
    (referenced table, local column, referenced column) of a table is
    columns 2, 3 and 4 of a row that the foreign-key read of that very
    table delivered. *)
Theorem sqlite_schema_hangs_together (self : DatabaseEngine) :
  _schema_cache self = None →
  let schema := (get_schema self).1 in
  (∀ t, is_Some (columns schema !! t) ↔ t ∈ tables schema) ∧
  (∀ t, is_Some (relationships schema !! t) → t ∈ tables schema) ∧
  holders_listed schema ∧
  (∀ t ref_table local_col ref_col,
     (ref_table, local_col, ref_col) ∈ rels schema t →
     ∃ c (rows : list (list string)) (r : list string),
       conn self = Some c ∧ execute c (foreign_key_query t) = inr rows ∧
       r ∈ rows ∧ r !! 2 = Some ref_table ∧ r !! 3 = Some local_col ∧
       r !! 4 = Some ref_col).
Proof.
  intros Hcache.
  assert (∀ s : DatabaseSchema,
            (∀ t, is_Some (relationships s !! t) → t ∈ tables s) →
            holders_listed s) as Hholders.
  { intros s Hs k Hk. apply Hs. unfold rels in Hk.
    destruct (relationships s !! k); [eauto|done]. }
  assert (let schema := empty_schema in
          (∀ t, is_Some (columns schema !! t) ↔ t ∈ tables schema) ∧
          (∀ t, is_Some (relationships schema !! t) → t ∈ tables schema) ∧
          holders_listed schema ∧
          (∀ t ref_table local_col ref_col,
             (ref_table, local_col, ref_col) ∈ rels schema t →
             ∃ c (rows : list (list string)) (r : list string),
               conn self = Some c ∧ execute c (foreign_key_query t) = inr rows ∧
               r ∈ rows ∧ r !! 2 = Some ref_table ∧ r !! 3 = Some local_col ∧
               r !! 4 = Some ref_col)) as Hempty.
  { cbv zeta. split; [|split; [|split]].
    - intros t. simpl. rewrite lookup_empty.
      split; [by intros [? ?]|by intros ?%elem_of_nil].
    - intros t. simpl. rewrite lookup_empty. by intros [? ?].
    - apply Hholders. intros t. simpl. rewrite lookup_empty. by intros [? ?].
    - unfold rels. simpl. intros t a b d. rewrite lookup_empty.
      by intros ?%elem_of_nil. }
  unfold get_schema. rewrite Hcache.
  destruct (conn self) as [c|]; [|exact Hempty].
  destruct (execute c master_query) as [e|rows]; [exact Hempty|].
  destruct (comprehension _ rows) as [e|tabs]; [exact Hempty|].
  simpl. split; [apply read_columns_keys|].
  split; [apply read_relationships_keys|].
  split; [apply Hholders, read_relationships_keys|].
  intros t a b d Hin. unfold rels in Hin. simpl in Hin.
  apply read_relationships_entries in Hin as (_ & rws & r & ? & ? & ? & ? & ?).
  exists c, rws, r. done.
Qed.

Section NetworkSchema.

Variable cur : Cursor.

Lemma net_read_columns_ok sql tabs : ∀ cols cols',
  net_read_columns cur sql tabs cols = inr cols' →
  ∀ t, t ∈ tabs → ∃ rows, cur_execute cur sql [t] = inr rows.
Proof.
  induction tabs as [|x r IH]; intros cols cols'; simpl.
  - intros _ t Ht. by apply elem_of_nil in Ht.
  - destruct (cur_execute cur sql [x]) as [e|rows] eqn:E; simpl; [done|].
    destruct (comprehension _ rows); simpl; [done|].
    intros H t [->|Ht]%elem_of_cons; [eauto|]. by eapply IH.
Qed.

Lemma net_read_relationships_ok sql tabs : ∀ rel rel',
  net_read_relationships cur sql tabs rel = inr rel' →
  ∀ t, t ∈ tabs → ∃ rows, cur_execute cur sql [t] = inr rows.
Proof.
  induction tabs as [|x r IH]; intros rel rel'; simpl.
  - intros _ t Ht. by apply elem_of_nil in Ht.
  - destruct (cur_execute cur sql [x]) as [e|rows] eqn:E; simpl; [done|].
    destruct (net_append_foreign_keys x rows rel); simpl; [done|].
    intros H t [->|Ht]%elem_of_cons; [eauto|]. by eapply IH.
Qed.

End NetworkSchema.

(** X19.  On PostgreSQL, MySQL and SQL Server introspection is all or
    nothing.  With a connection and no cached schema, [get_schema] either
    returns the empty schema and caches nothing, or it returns and caches a
    schema for which every read went through: the cursor was opened and
    closed, the table list was read, and for every listed table both the
    column read and the foreign-key read delivered rows.  One failed read
    for one table thus empties the whole schema. *)
Theorem network_introspection_all_or_nothing (qs : CatalogQueries)
    (self : NetworkEngine) (c : NetConnection) :
  net_schema_cache self = None →
  net_conn self = Some c →
  net_get_schema qs self = (empty_schema, self) ∨
  ∃ cur rows,
    cursor c = inr cur ∧ cur_close cur = inr () ∧
    cur_execute cur (tables_sql qs) [] = inr rows ∧
    comprehension (λ r, row_get r 0) rows
      = inr (tables (net_get_schema qs self).1) ∧
    net_schema_cache (net_get_schema qs self).2
      = Some (net_get_schema qs self).1 ∧
    ∀ t, t ∈ tables (net_get_schema qs self).1 →
         (∃ rows, cur_execute cur (columns_sql qs) [t] = inr rows) ∧
         (∃ rows, cur_execute cur (foreign_keys_sql qs) [t] = inr rows).
Proof.
  intros Hcache Hconn. unfold net_get_schema, net_introspect.
  rewrite Hcache, Hconn.
  destruct (cursor c) as [e|cur]; simpl; [by left|].
  destruct (cur_execute cur (tables_sql qs) []) as [e|rows] eqn:Hrows; simpl;
    [by left|].
  destruct (comprehension _ rows) as [e|tabs] eqn:Htabs; simpl; [by left|].
  destruct (net_read_columns cur _ tabs ∅) as [e|cols] eqn:Hcols; simpl;
    [by left|].
  destruct (net_read_relationships cur _ tabs ∅) as [e|rel] eqn:Hrel; simpl;
    [by left|].
  destruct (cur_close cur) as [e|[]] eqn:Hclose; simpl; [by left|].
  right. exists cur, rows. do 5 (split; [done|]). intros t Ht. split.
  - by eapply net_read_columns_ok.
  - by eapply net_read_relationships_ok.
Qed.

(** ** The shape of a join plan and when one is found *)

Section PlanShape.

Variable self : DatabaseSchema.

Lemma chain_snoc p : ∀ start cur n lc rc,
  chain start p cur → chain start (p ++ [(cur, n, lc, rc)]) n.
Proof.
  induction p as [|[[[l r] a] b] rest IH]; intros start cur n lc rc; simpl.
  - by intros ->.
  - intros [-> H]. split; [done|]. by apply IH.
Qed.

Lemma chain_end_in p : ∀ start n, chain start p n → n ∈ plan_tables start p.
Proof.
  induction p as [|[[[l r] a] b] rest IH]; intros start n; simpl.
  - intros ->. apply list_elem_of_singleton. done.
  - intros [_ H]. unfold plan_tables. simpl. right. by apply (IH r).
Qed.

Lemma plan_tables_app start p p' t :
  t ∈ plan_tables start p → t ∈ plan_tables start (p ++ p').
Proof.
  unfold plan_tables. rewrite map_app, !elem_of_cons, elem_of_app. tauto.
Qed.

Lemma extends_by_chain start cur path n p :
  chain start path cur → extends_by self cur path n p →
  chain start p n ∧ ∀ t, t ∈ plan_tables start path → t ∈ plan_tables start p.
Proof.
  intros Hc [(lc & rc & _ & ->)|(_ & lc & rc & _ & ->)];
    (split; [by apply chain_snoc|]); intros t; apply plan_tables_app.
Qed.

Lemma adjacent_sym a b : adjacent self a b → adjacent self b a.
Proof. intros [H|H]; [right|left]; done. Qed.

Lemma connected_sym a b : connected self a b → connected self b a.
Proof.
  induction 1 as [|a b d Hab _ IH]; [apply rtc_refl|].
  eapply rtc_r; [exact IH|]. by apply adjacent_sym.
Qed.

Lemma real_edge_adjacent l r a b :
  real_edge self (l, r, a, b) → adjacent self l r.
Proof. intros [H|H]; [left|right]; eauto. Qed.

(** The tables of a chain of relationships are connected to its start. *)
Lemma chain_connected p : ∀ start finish t,
  chain start p finish → Forall (real_edge self) p →
  t ∈ plan_tables start p → connected self start t.
Proof.
  induction p as [|[[[l r] a] b] rest IH]; intros start finish t; simpl.
  - intros _ _ ->%list_elem_of_singleton. apply rtc_refl.
  - intros [-> Hc] [He Hrest]%Forall_cons [->|Ht]%elem_of_cons;
      [apply rtc_refl|].
    eapply rtc_l; [by eapply real_edge_adjacent|]. by eapply IH.
Qed.

(** While the loop runs, every queued plan leads from the start table to
    its entry and passes through every requested table already resolved. *)
Lemma bfs_iter_plan (R : gset string) start st st' :
  (targets st ⊆ R ∧
   ∀ n p, (n, p) ∈ queue st →
     chain start p n ∧
     ∀ t, t ∈ R → t ∉ targets st → t ∈ plan_tables start p) →
  bfs_iter self st = Again st' →
  (targets st' ⊆ R ∧
   ∀ n p, (n, p) ∈ queue st' →
     chain start p n ∧
     ∀ t, t ∈ R → t ∉ targets st' → t ∈ plan_tables start p).
Proof.
  intros [Hsub Hq] Hiter.
  destruct (bfs_iter_again _ _ _ Hiter) as (cur & path & rest & Hqs & Hcase).
  assert (chain start path cur ∧
          ∀ t, t ∈ R → t ∉ targets st → t ∈ plan_tables start path)
    as [Hchain Hcover] by (apply Hq; rewrite Hqs; left).
  assert (∀ n p, (n, p) ∈ rest →
            chain start p n ∧
            ∀ t, t ∈ R → t ∉ targets st → t ∈ plan_tables start p) as Hrest.
  { intros n p Hin. apply Hq. rewrite Hqs. by right. }
  destruct Hcase as [(Hin & Htg & _ & _ & Hq')|
                     [(_ & _ & Htg & _ & Hq')|(_ & _ & Htg & _ & Hq')]];
    rewrite Htg, Hq'.
  - assert (∀ t, t ∈ R → t ∉ targets st ∖ {[cur]} →
                 t ∈ plan_tables start path) as Hcover'.
    { intros t HR Ht. destruct (decide (t = cur)) as [->|Hne].
      - by apply chain_end_in.
      - apply Hcover; [done|]. set_solver. }
    split; [set_solver|]. intros n p Hnp.
    rewrite !elem_of_app in Hnp. destruct Hnp as [Hnp|[Hnp|Hnp]].
    + apply list_elem_of_singleton in Hnp as [= -> ->]. done.
    + apply elem_forward_edges in Hnp.
      destruct (extends_by_chain _ _ _ _ _ Hchain Hnp) as [? Hmore]. split; auto.
    + apply elem_reverse_edges in Hnp.
      destruct (extends_by_chain _ _ _ _ _ Hchain Hnp) as [? Hmore]. split; auto.
  - split; [done|]. exact Hrest.
  - split; [done|]. intros n p Hnp.
    rewrite !elem_of_app in Hnp. destruct Hnp as [Hnp|[Hnp|Hnp]].
    + by apply Hrest.
    + apply elem_forward_edges in Hnp.
      destruct (extends_by_chain _ _ _ _ _ Hchain Hnp) as [? Hmore]. split; auto.
    + apply elem_reverse_edges in Hnp.
      destruct (extends_by_chain _ _ _ _ _ Hchain Hnp) as [? Hmore]. split; auto.
Qed.

Lemma bfs_loop_plan fuel start rest plan :
  bfs_loop fuel self (bfs_init start rest) = Some (Some plan) →
  (∃ finish, finish ∈ rest ∧ chain start plan finish) ∧
  ∀ t, t ∈ rest → t ∈ plan_tables start plan.
Proof.
  intros Hrun.
  destruct (bfs_loop_invariant self
    (λ st, targets st ⊆ list_to_set rest ∧
           ∀ n p, (n, p) ∈ queue st →
             chain start p n ∧
             ∀ t, t ∈ (list_to_set rest : gset string) → t ∉ targets st →
                  t ∈ plan_tables start p))
    with (fuel := fuel) (st := bfs_init start rest) (r := Some plan)
    as (final & [Hsub Hq] & Hret); [|simpl|done|].
  - intros s s'. apply bfs_iter_plan.
  - split; [done|]. intros n p [= -> ->]%list_elem_of_singleton.
    split; [done|]. intros t Ht Hnt. done.
  - apply bfs_iter_return in Hret
      as [[_ [=]]|(cur & path & others & Hqf & Hcur & Hempty & [= ->])].
    destruct (Hq cur path) as [Hchain Hcover]; [rewrite Hqf; left|].
    split.
    + exists cur. split; [|done].
      apply (proj1 (elem_of_list_to_set (C := gset string) cur rest)).
      set_solver.
    + intros t Ht. destruct (decide (t = cur)) as [->|Hne].
      * by apply chain_end_in.
      * apply Hcover; [|set_solver].
        by apply (proj2 (elem_of_list_to_set (C := gset string) t rest)).
Qed.

Lemma hop_enqueued cur path vis m :
  hop self cur m → m ∉ vis →
  ∃ p, (m, p) ∈ forward_edges self cur path vis
                  ++ reverse_edges self cur path vis.
Proof.
  intros [(lc & rc & Hin)|(Hm & lc & rc & Hin)] Hvis.
  - exists (path ++ [(cur, m, lc, rc)]). apply elem_of_app. left.
    unfold forward_edges. apply list_elem_of_In, in_flat_map.
    exists (m, lc, rc). split; [by apply list_elem_of_In|].
    rewrite decide_True by done. by left.
  - exists (path ++ [(cur, m, rc, lc)]). apply elem_of_app. right.
    unfold reverse_edges. apply list_elem_of_In, in_flat_map.
    exists m. split; [by apply list_elem_of_In|].
    rewrite decide_True by done. apply in_flat_map.
    exists (cur, lc, rc). split; [by apply list_elem_of_In|].
    rewrite decide_True by done. by left.
Qed.

Lemma reach_avoiding_start V n t : reach_avoiding self V n t → n ∉ V.
Proof. by destruct 1. Qed.

Lemma reach_split V cur n t :
  reach_avoiding self V n t → t ≠ cur →
  reach_avoiding self ({[cur]} ∪ V) n t ∨
  ∃ m, hop self cur m ∧ reach_avoiding self ({[cur]} ∪ V) m t.
Proof.
  induction 1 as [n Hn|n m t Hn Hhop Hreach IH]; intros Hne.
  - left. apply reach_here. set_solver.
  - destruct (IH Hne) as [Hm|?]; [|by right].
    destruct (decide (n = cur)) as [->|Hcur]; [right; eauto|].
    left. eapply reach_step; [|done..]. set_solver.
Qed.

Lemma connected_reach a b :
  holders_listed self → connected self a b → reach_avoiding self ∅ a b.
Proof.
  intros Hlisted. induction 1 as [a|a y b Hay _ IH].
  - apply reach_here. set_solver.
  - eapply reach_step; [set_solver| |exact IH].
    destruct Hay as [H|(lc & rc & Hin)]; [by left|]. right.
    split; [|eauto]. apply Hlisted. intros E. rewrite E in Hin.
    by apply elem_of_nil in Hin.
Qed.

(** With every relationship holder listed, a loop that still has targets
    connected to the start table has, for each of them, a queued table
    from which it can be reached through tables not yet visited. *)
Lemma bfs_iter_frontier start st st' :
  holders_listed self →
  (targets st ≠ ∅ ∧
   (∀ n p, (n, p) ∈ queue st → connected self start n) ∧
   (∀ t, t ∈ targets st → connected self start t) ∧
   (∀ t, t ∈ targets st →
         ∃ n p, (n, p) ∈ queue st ∧ reach_avoiding self (visited st) n t)) →
  bfs_iter self st = Again st' →
  (targets st' ≠ ∅ ∧
   (∀ n p, (n, p) ∈ queue st' → connected self start n) ∧
   (∀ t, t ∈ targets st' → connected self start t) ∧
   (∀ t, t ∈ targets st' →
         ∃ n p, (n, p) ∈ queue st' ∧ reach_avoiding self (visited st') n t)).
Proof.
  intros Hlisted (Hne & Hqc & Htc & Hfront) Hiter.
  assert (∀ n p, (n, p) ∈ queue st' → connected self start n) as Hqc'.
  { apply (bfs_iter_preserves self (λ n _, connected self start n) st);
      [|done..].
    intros cur path n p Hc He. eapply rtc_r; [exact Hc|].
    by eapply extends_by_adjacent. }
  destruct (bfs_iter_again _ _ _ Hiter) as (cur & path & rest & Hqs & Hcase).
  assert (connected self start cur) as Hcur by (eapply Hqc; rewrite Hqs; left).
  destruct Hcase as [(Hin & Htg & Hne' & Hvis & Hq')|
                     [(Hnt & Hv & Htg & Hvis & Hq')|
                      (Hnt & Hnv & Htg & Hvis & Hq')]].
  - split; [done|]. split; [done|]. rewrite Htg, Hvis, Hq'.
    split; [intros t Ht; apply Htc; set_solver|].
    intros t Ht. assert (t ≠ cur) as Htcur by set_solver.
    assert (connected self cur t) as Hct.
    { etrans; [by apply connected_sym|]. apply Htc. set_solver. }
    apply (connected_reach _ _ Hlisted) in Hct.
    destruct (reach_split _ cur _ _ Hct Htcur) as [Hbad|(m & Hhop & Hm)].
    + apply reach_avoiding_start in Hbad. set_solver.
    + destruct (hop_enqueued cur path ({[cur]} ∪ ∅) m Hhop) as [p Hp];
        [by eapply reach_avoiding_start|].
      exists m, p. split; [|done]. apply elem_of_app. by right.
  - rewrite Htg, Hvis, Hq'. split; [done|]. split; [by rewrite <- Hq'|].
    split; [done|]. intros t Ht.
    destruct (Hfront t Ht) as (n & p & Hnp & Hreach).
    exists n, p. split; [|done]. rewrite Hqs in Hnp.
    apply elem_of_cons in Hnp as [[= -> ->]|?]; [|done].
    apply reach_avoiding_start in Hreach. done.
  - rewrite Htg, Hvis, Hq'. split; [done|]. split; [by rewrite <- Hq'|].
    split; [done|]. intros t Ht.
    assert (t ≠ cur) as Htcur by (intros ->; done).
    destruct (Hfront t Ht) as (n & p & Hnp & Hreach).
    destruct (reach_split _ cur _ _ Hreach Htcur) as [Hkeep|(m & Hhop & Hm)].
    + exists n, p. split; [|done]. rewrite Hqs in Hnp.
      apply elem_of_cons in Hnp as [[= -> ->]|?].
      * apply reach_avoiding_start in Hkeep. set_solver.
      * apply elem_of_app. by left.
    + destruct (hop_enqueued cur path ({[cur]} ∪ visited st) m Hhop)
        as [p' Hp]; [by eapply reach_avoiding_start|].
      exists m, p'. split; [|done]. apply elem_of_app. by right.
Qed.

Lemma bfs_loop_finds fuel start rest r :
  holders_listed self → rest ≠ [] →
  (∀ t, t ∈ rest → connected self start t) →
  bfs_loop fuel self (bfs_init start rest) = Some r →
  ∃ plan, r = Some plan.
Proof.
  intros Hlisted Hrest Hconn Hrun.
  destruct (bfs_loop_invariant self
    (λ st, targets st ≠ ∅ ∧
           (∀ n p, (n, p) ∈ queue st → connected self start n) ∧
           (∀ t, t ∈ targets st → connected self start t) ∧
           (∀ t, t ∈ targets st →
              ∃ n p, (n, p) ∈ queue st ∧
                     reach_avoiding self (visited st) n t)))
    with (fuel := fuel) (st := bfs_init start rest) (r := r)
    as (final & (Hne & _ & _ & Hfront) & Hret); [| |done|].
  - intros s s'. by apply bfs_iter_frontier.
  - unfold bfs_init. cbn [targets queue visited].
    split; [destruct rest; [done|set_solver]|].
    split; [intros n p [= -> ->]%list_elem_of_singleton; apply rtc_refl|].
    split; [intros t Ht%elem_of_list_to_set; auto|].
    intros t Ht%elem_of_list_to_set. exists start, []. split; [left|].
    by apply connected_reach, Hconn.
  - apply bfs_iter_return in Hret
      as [[Hq ->]|(cur & path & others & _ & _ & _ & ->)]; [|eauto].
    apply set_choose_L in Hne as [t Ht].
    destruct (Hfront t Ht) as (n & p & Hnp & _).
    rewrite Hq in Hnp. by apply elem_of_nil in Hnp.
Qed.

End PlanShape.

(** X20.  A plan that [find_join_path] returns is connected and complete:
    its steps form a chain that starts at the first requested table, each
    step leaving from the table the step before arrived at, it ends at a
    requested table, and every requested table is the start or the right
    table of one of its steps. *)
Theorem join_plan_is_a_chain (self : DatabaseSchema) (fuel : nat)
    (start : string) (rest : list string) (plan : JoinPlan) :
  find_join_path fuel self (start :: rest) = Some (Some plan) →
  (∃ finish, finish ∈ rest ∧ chain start plan finish) ∧
  ∀ t, t ∈ rest → t ∈ plan_tables start plan.
Proof.
  destruct rest as [|second rest]; [done|]. apply bfs_loop_plan.
Qed.

(** X21.  On a model that lists every table holding a relationship,
    [find_join_path] finds a plan for two or more tables exactly when
    every requested table is connected to the first one through
    relationships taken in either direction. *)
Theorem join_plan_found_iff_connected (self : DatabaseSchema)
    (start : string) (rest : list string) :
  holders_listed self → rest ≠ [] →
  (∃ fuel plan, ∀ m, fuel ≤ m →
     find_join_path m self (start :: rest) = Some (Some plan)) ↔
  (∀ t, t ∈ rest → connected self start t).
Proof.
  intros Hlisted Hrest. destruct rest as [|second rest]; [done|]. split.
  - intros (fuel & plan & Hrun) t Ht.
    specialize (Hrun fuel (le_n _)). simpl in Hrun.
    destruct (bfs_loop_plan self _ _ _ _ Hrun) as [(finish & _ & Hchain) Hall].
    eapply chain_connected; [exact Hchain| |by apply Hall].
    eapply bfs_loop_real_edges; [|exact Hrun].
    intros n p [= -> ->]%list_elem_of_singleton. constructor.
  - intros Hconn.
    destruct (bfs_init_terminates self start (second :: rest))
      as (fuel & r & Hrun).
    destruct (bfs_loop_finds self _ _ _ _ Hlisted Hrest Hconn Hrun)
      as [plan ->].
    exists fuel, plan. intros m Hm. simpl. by eapply bfs_loop_mono.
Qed.

(** ** The further properties at sample inputs *)

(** X1 at [drop table t]. *)
Lemma denylist_scan_exact_witness :
  ascii_text "drop table t" = true ∧
  contains_dangerous_sql "drop table t" = Some "DROP" ∧
  occurs_as_word "DROP" "drop table t".
Proof.
  assert (contains_dangerous_sql "drop table t" = Some "DROP") as Hfind
    by (vm_compute; reflexivity).
  split; [reflexivity|]. split; [exact Hfind|].
  exact (proj1 (proj2 (denylist_scan_exact "drop table t" eq_refl) "DROP" Hfind)).
Defined.

(** X2 at a SELECT followed by a comment. *)
Lemma backend_sees_only_vetted_select_witness :
  ascii_text "SELECT 1 -- drop" = true ∧
  "SELECT 1" ∈ (execute_select (engine_on (Some answering)) "SELECT 1 -- drop").2 ∧
  (execute_select (engine_on (Some answering)) "SELECT 1 -- drop").2
    = ["SELECT 1"] ∧
  "SELECT 1" = strip_sql_comments "SELECT 1 -- drop" ∧
  Py.contains ";" (Py.rstrip_semi "SELECT 1") = false ∧
  (∀ w, w ∈ dangerous → ¬ occurs_as_word w "SELECT 1") ∧
  Py.startswith (Py.strip (Py.upper "SELECT 1")) "SELECT" = true.
Proof.
  assert ("SELECT 1" ∈ (execute_select (engine_on (Some answering))
                          "SELECT 1 -- drop").2) as Hin.
  { apply list_elem_of_In. vm_compute. tauto. }
  split; [reflexivity|]. split; [exact Hin|].
  exact (backend_sees_only_vetted_select (engine_on (Some answering))
           "SELECT 1 -- drop" "SELECT 1" eq_refl Hin).
Defined.

(** X4 at a backend that raises. *)
Lemma admitted_statement_outcome_witness :
  status (execute_select (engine_on (Some raising)) "SELECT 1").1 = "error" ∧
  df (execute_select (engine_on (Some raising)) "SELECT 1").1 = None ∧
  String.prefix "database is locked"
    (message (execute_select (engine_on (Some raising)) "SELECT 1").1) = true.
Proof.
  apply (admitted_statement_outcome (engine_on (Some raising)) raising "SELECT 1").
  - reflexivity.
  - vm_compute. discriminate.
Defined.

(** X5 at a refused statement and two different backends. *)
Lemma refusal_ignores_backend_witness :
  execute_select (engine_on (Some raising)) "drop table t"
    = execute_select (engine_on (Some answering)) "drop table t".
Proof.
  apply (refusal_ignores_backend (engine_on (Some answering))
           (engine_on (Some raising)) "drop table t").
  - by eexists.
  - by eexists.
  - vm_compute. reflexivity.
Defined.

(** X6 at a backend that answers. *)
Lemma test_connection_alive_iff_witness :
  (test_connection (engine_on (Some answering))).1 = true.
Proof.
  apply (proj2 (test_connection_alive_iff (engine_on (Some answering)))).
  exists answering, one_row. split; reflexivity.
Defined.

(** X8 at a schema cached from one backend and then served on another. *)
Lemma cached_schema_is_served_witness :
  get_schema (on_backend raising (get_schema (engine_on (Some pragma_denied))).2)
    = ((get_schema (engine_on (Some pragma_denied))).1,
       on_backend raising (get_schema (engine_on (Some pragma_denied))).2).
Proof.
  apply (proj1 (cached_schema_is_served (engine_on (Some pragma_denied)) raising)).
  vm_compute. by eexists.
Defined.

(** X11 at two spellings quoted for MySQL. *)
Lemma quoting_is_faithful_witness :
  q "Orders" MYSQL = q "Orders" MYSQL ∧ "Orders" = "Orders".
Proof.
  split; [reflexivity|].
  apply (proj1 quoting_is_faithful MYSQL "Orders" "Orders"). reflexivity.
Defined.

(** X12 at the limit of the drafts on SQL Server. *)
Lemma limit_is_rendered_once_witness :
  render_select SQLSERVER (Some 10%Z) = "SELECT TOP 10" ∧
  render_limit SQLSERVER 10 = EmptyString.
Proof.
  apply (proj1 (limit_is_rendered_once SQLSERVER 10)). discriminate.
Defined.

(** X14 at an input with blanks and an empty piece. *)
Lemma parsed_input_is_clean_witness :
  parse_terms "a, b ,, c" = ["a"; "b"; "c"] ∧
  "b" ≠ EmptyString ∧ Py.strip "b" = "b" ∧ Py.contains "," "b" = false.
Proof.
  split; [vm_compute; reflexivity|].
  apply (proj1 parsed_input_is_clean "a, b ,, c" "b").
  apply list_elem_of_In. vm_compute. tauto.
Defined.

(** X15 at an identifier of the search space. *)
Lemma split_dot_round_trip_witness :
  split_dot ("Orders" +:+ "." +:+ "OrderID") = Some ("Orders", "OrderID").
Proof.
  apply (proj2 (proj2 split_dot_round_trip) "Orders" "OrderID"). reflexivity.
Defined.

Lemma sales_schema_plain t :
  t ∈ tables sales_schema → Py.contains "." t = false.
Proof.
  intros [->|[->|Ht]%elem_of_cons]%elem_of_cons; [reflexivity..|].
  by apply elem_of_nil in Ht.
Qed.

(** X16 at the term "sold", which matches a column of OrderDetails. *)
Lemma discovered_tables_are_listed_witness :
  "OrderDetails"
    ∈ add_discovered_tables ∅ (discover_term (λ _ _, []) sales_schema "sold").1 ∧
  "OrderDetails" ∈ tables sales_schema.
Proof.
  assert ("OrderDetails"
            ∈ add_discovered_tables ∅
                (discover_term (λ _ _, []) sales_schema "sold").1) as Hin
    by (vm_compute; reflexivity).
  split; [exact Hin|].
  exact (discovered_tables_are_listed (λ _ _, []) sales_schema "sold"
           "OrderDetails" sales_schema_plain Hin).
Defined.

(** X17 at a column match of the term "sold". *)
Lemma discovery_matches_identifiers_witness :
  "OrderDetails.Quantity" ∈ (discover_term (λ _ _, []) sales_schema "sold").1 ∧
  (∃ t, t ∈ tables sales_schema ∧
        ("OrderDetails.Quantity" = t ∨
         ∃ col, col ∈ get_columns sales_schema t ∧
                "OrderDetails.Quantity" = t +:+ "." +:+ col)) ∧
  ascii_text "sold" = true ∧
  discover_term (λ _ _, []) sales_schema (Py.upper "sold")
    = discover_term (λ _ _, []) sales_schema "sold" ∧
  discover_term (λ _ _, []) sales_schema (Py.lower "sold")
    = discover_term (λ _ _, []) sales_schema "sold".
Proof.
  assert ("OrderDetails.Quantity"
            ∈ (discover_term (λ _ _, []) sales_schema "sold").1) as Hin
    by (vm_compute; reflexivity).
  split; [exact Hin|]. split.
  - exact (proj1 (discovery_matches_identifiers (λ _ _, []) sales_schema "sold")
             _ Hin).
  - split; [reflexivity|].
    exact (proj2 (discovery_matches_identifiers (λ _ _, []) sales_schema "sold")
             eq_refl).
Defined.

(** X18 at a backend that lists one table and refuses its PRAGMAs. *)
Lemma sqlite_schema_hangs_together_witness :
  holders_listed (get_schema (engine_on (Some pragma_denied))).1.
Proof.
  apply (sqlite_schema_hangs_together (engine_on (Some pragma_denied))).
  reflexivity.
Defined.

(** X19 at a cursor that fails on the reads of one of two tables. *)
Lemma network_introspection_all_or_nothing_witness :
  net_get_schema postgres_queries (net_engine_on (Some flaky))
    = (empty_schema, net_engine_on (Some flaky)).
Proof.
  destruct (network_introspection_all_or_nothing postgres_queries
              (net_engine_on (Some flaky)) flaky eq_refl eq_refl)
    as [H|(cur & rows & Hcur & _ & Hrows & Htabs & _ & Hall)]; [exact H|].
  exfalso. injection Hcur as <-. injection Hrows as <-.
  vm_compute in Htabs. discriminate.
Defined.

(** X20 at the model of Orders and Customers. *)
Lemma join_plan_is_a_chain_witness :
  (∃ finish, finish ∈ ["Customers"] ∧
     chain "Orders" [("Orders", "Customers", "CustomerID", "CustomerID")] finish) ∧
  ∀ t, t ∈ ["Customers"] →
       t ∈ plan_tables "Orders"
             [("Orders", "Customers", "CustomerID", "CustomerID")].
Proof.
  apply (join_plan_is_a_chain orders_customers 2 "Orders" ["Customers"]).
  vm_compute. reflexivity.
Defined.

Lemma orders_customers_listed : holders_listed orders_customers.
Proof.
  intros k Hk. unfold rels in Hk. simpl in Hk.
  destruct (decide (k = "Orders")) as [->|Hne]; [left|].
  by rewrite lookup_singleton_ne in Hk.
Qed.

(** X21 at the model of Orders and Customers. *)
Lemma join_plan_found_iff_connected_witness :
  (∃ fuel plan, ∀ m, fuel ≤ m →
     find_join_path m orders_customers ["Orders"; "Customers"]
       = Some (Some plan)) ↔
  (∀ t, t ∈ ["Customers"] → connected orders_customers "Orders" t).
Proof.
  apply (join_plan_found_iff_connected orders_customers "Orders" ["Customers"]).
  - exact orders_customers_listed.
  - discriminate.
Defined.

(** ** Shortest plans *)

Section Shortest.

Variable self : DatabaseSchema.

Lemma extends_by_hop cur path n p :
  extends_by self cur path n p → hop self cur n ∧ length p = S (length path).
Proof.
  intros [(lc & rc & Hin & ->)|(Hn & lc & rc & Hin & ->)];
    (split; [|rewrite length_app; simpl; lia]); [left|right]; eauto.
Qed.

(** The head of a levelled queue can be taken to be of the current level. *)
Lemma levelled_head start t st cur path rest :
  levelled self start t st → queue st = (cur, path) :: rest →
  ∃ (A B : list (string * JoinPlan)),
    rest = A ++ B ∧
    (∀ n p, (n, p) ∈ A → length p = length path) ∧
    (∀ n p, (n, p) ∈ B → length p = S (length path)) ∧
    (∀ k v, k < length path → hop_walk self k start v → v ∈ visited st) ∧
    (∀ v, hop_walk self (length path) start v →
          v ∈ visited st ∨ v = cur ∨ ∃ p, (v, p) ∈ A).
Proof.
  intros (_ & _ & Hsucc & L & A & B & Hq & HA & HB & Hlow & Hlev) Hqs.
  rewrite Hqs in Hq. destruct A as [|x A1].
  - simpl in Hq. subst B. exists rest, [].
    assert (length path = S L) as -> by (eapply HB; left).
    assert (∀ k v, k < S L → hop_walk self k start v → v ∈ visited st) as Hlow'.
    { intros k v Hk Hw. destruct (decide (k = L)) as [->|Hne].
      - destruct (Hlev v Hw) as [?|[p Hp]]; [done|]. by apply elem_of_nil in Hp.
      - apply (Hlow k); [lia|done]. }
    split; [by rewrite app_nil_r|].
    split; [intros n p Hin; eapply HB; by right|].
    split; [intros n p Hin; by apply elem_of_nil in Hin|].
    split; [exact Hlow'|].
    intros v Hw. inversion Hw as [|k a u v' Hu Hhop]; subst.
    assert (u ∈ visited st) as Hvis by (by apply (Hlow' L); [lia|]).
    destruct (Hsucc u v Hvis Hhop) as [?|[p Hp]]; [by left|]. right.
    rewrite Hqs in Hp. apply elem_of_cons in Hp as [[= -> ->]|Hp]; eauto.
  - injection Hq as <- ->. exists A1, B.
    assert (length path = L) as -> by (eapply HA; left).
    split; [done|].
    split; [intros n p Hin; eapply HA; by right|].
    split; [done|]. split; [done|].
    intros v Hw. destruct (Hlev v Hw) as [?|[p Hp]]; [by left|]. right.
    apply elem_of_cons in Hp as [[= -> ->]|Hp]; eauto.
Qed.

Lemma levelled_step start t st st' :
  levelled self start t st → bfs_iter self st = Again st' →
  levelled self start t st'.
Proof.
  intros Hlev Hiter.
  destruct (bfs_iter_again _ _ _ Hiter) as (cur & path & rest & Hqs & Hcase).
  destruct (levelled_head _ _ _ _ _ _ Hlev Hqs)
    as (A & B & -> & HA & HB & Hlow & Hlevel).
  destruct Hlev as (Htg & Ht & Hsucc & _).
  destruct Hcase as [(Hin & Htg' & Hne & _)|
                     [(Hnt & Hv & Htg' & Hvis & Hq')|
                      (Hnt & Hnv & Htg' & Hvis & Hq')]].
  - exfalso. apply Hne. rewrite Htg', Htg. set_solver.
  - unfold levelled. rewrite Htg', Hvis, Hq'.
    split; [done|]. split; [done|]. split.
    + intros u v Hu Hhop. destruct (Hsucc u v Hu Hhop) as [?|[p Hp]]; [by left|].
      rewrite Hqs in Hp. apply elem_of_cons in Hp as [[= -> ->]|Hp]; eauto.
    + exists (length path), A, B. do 4 (split; [done|]).
      intros v Hw. destruct (Hlevel v Hw) as [?|[->|?]]; auto.
  - assert (cur ≠ t) as Hcur by set_solver.
    unfold levelled. rewrite Htg', Hvis, Hq'.
    split; [done|]. split; [set_solver|]. split.
    + intros u v Hu Hhop.
      destruct (decide (v ∈ {[cur]} ∪ visited st)) as [?|Hnew]; [by left|].
      right. apply elem_of_union in Hu as [->%elem_of_singleton|Hu].
      * destruct (hop_enqueued self cur path ({[cur]} ∪ visited st) v Hhop Hnew)
          as [p Hp].
        exists p. rewrite elem_of_app. by right.
      * destruct (Hsucc u v Hu Hhop) as [?|[p Hp]]; [set_solver|].
        rewrite Hqs in Hp. apply elem_of_cons in Hp as [[= -> ->]|Hp];
          [set_solver|].
        exists p. rewrite elem_of_app. by left.
    + exists (length path), A,
        (B ++ forward_edges self cur path ({[cur]} ∪ visited st)
           ++ reverse_edges self cur path ({[cur]} ∪ visited st)).
      split; [by rewrite <- app_assoc|]. split; [done|]. split.
      * intros n p [?|[Hnp|Hnp]%elem_of_app]%elem_of_app; [by eapply HB|..].
        -- by apply elem_forward_edges, extends_by_hop in Hnp as [_ ?].
        -- by apply elem_reverse_edges, extends_by_hop in Hnp as [_ ?].
      * split; [intros k v Hk Hw; apply elem_of_union_r; by eapply Hlow|].
        intros v Hw. destruct (Hlevel v Hw) as [?|[->|?]]; [|left|by right];
          set_solver.
Qed.

Lemma bfs_loop_shortest fuel start t plan :
  bfs_loop fuel self (bfs_init start [t]) = Some (Some plan) →
  hop_walk self (length plan) start t ∧
  ∀ k, hop_walk self k start t → length plan ≤ k.
Proof.
  intros Hrun.
  destruct (bfs_loop_invariant self
    (λ st, levelled self start t st ∧
           ∀ n p, (n, p) ∈ queue st → hop_walk self (length p) start n))
    with (fuel := fuel) (st := bfs_init start [t]) (r := Some plan)
    as (final & [Hlev Hwalks] & Hret); [| |done|].
  - intros s s' [Hs Hw] Hiter. split; [by eapply levelled_step|].
    apply (bfs_iter_preserves self (λ n p, hop_walk self (length p) start n) s);
      [|done..].
    intros cur path n p Hc [Hhop ->]%extends_by_hop. by econstructor.
  - split.
    + unfold levelled, bfs_init. cbn [targets queue visited].
      split; [set_solver|]. split; [set_solver|]. split; [set_solver|].
      exists 0, [(start, [])], []. split; [done|].
      split; [by intros n p [= -> ->]%list_elem_of_singleton|].
      split; [by intros n p ?%elem_of_nil|].
      split; [intros k v Hk; lia|].
      intros v Hw. inversion Hw; subst. right. exists []. left.
    + intros n p [= -> ->]%list_elem_of_singleton. constructor.
  - apply bfs_iter_return in Hret
      as [[_ [=]]|(cur & path & others & Hqf & Hcur & _ & [= ->])].
    destruct (levelled_head _ _ _ _ _ _ Hlev Hqf) as (A & B & _ & _ & _ & Hlow & _).
    destruct Hlev as (Htg & Ht & _).
    assert (cur = t) as -> by set_solver.
    split; [apply Hwalks; rewrite Hqf; left|].
    intros k Hw. destruct (decide (k < length path)) as [Hk|?]; [|lia].
    destruct Ht. by eapply Hlow.
Qed.

End Shortest.

(** X22.  For a request of two tables the plan [find_join_path] returns is
    a shortest one: it has as many steps as the second table is hops away
    from the first, a hop following a relationship of the table it leaves
    or, backwards, a relationship of a listed table; no way of getting
    there takes fewer hops. *)
Theorem two_table_plan_is_shortest (self : DatabaseSchema) (fuel : nat)
    (start t : string) (plan : JoinPlan) :
  find_join_path fuel self [start; t] = Some (Some plan) →
  hop_walk self (length plan) start t ∧
  ∀ k, hop_walk self k start t → length plan ≤ k.
Proof. apply bfs_loop_shortest. Qed.

(** X22 at the ring of three tables, where the way back is one hop. *)
Lemma two_table_plan_is_shortest_witness :
  hop_walk ring 1 "A" "C" ∧ ∀ k, hop_walk ring k "A" "C" → 1 ≤ k.
Proof.
  apply (two_table_plan_is_shortest ring 5 "A" "C" [("A", "C", "id", "a_id")]).
  vm_compute. reflexivity.
Defined.

(** X23.  The draft is either a query or a placeholder: it opens with a
    comment exactly when the target tables are not a single one and the
    join path is missing or empty, and in every other case it opens with
    SELECT.  The empty plan returned for a repeated table thus gives the
    placeholder, like no plan at all. *)
Theorem draft_is_query_or_placeholder (d : SQLDialect)
    (tables_to_join : list string) (join_path : option JoinPlan)
    (discovered : list (string * list string)) :
  (Py.startswith (sql_preview d tables_to_join join_path discovered) "--" = true ↔
   length tables_to_join ≠ 1 ∧ (join_path = None ∨ join_path = Some [])) ∧
  (Py.startswith (sql_preview d tables_to_join join_path discovered) "--" = false →
   Py.startswith (sql_preview d tables_to_join join_path discovered) "SELECT"
     = true).
Proof.
  assert (∀ t, Py.startswith (sql_preview d [t] join_path discovered) "--" = false
               ∧ Py.startswith (sql_preview d [t] join_path discovered) "SELECT"
                 = true) as Hone.
  { intros t. by destruct d. }
  assert (∀ tabs, length tabs ≠ 1 →
            match join_path with
            | Some (_ :: _) =>
                Py.startswith (sql_preview d tabs join_path discovered) "--" = false
                ∧ Py.startswith (sql_preview d tabs join_path discovered) "SELECT"
                  = true
            | _ => Py.startswith (sql_preview d tabs join_path discovered) "--"
                   = true
            end) as Hmany.
  { intros tabs Hlen. destruct tabs as [|a [|b tabs]]; [|done|];
      destruct join_path as [[|step steps]|]; try done; by destruct d. }
  destruct (decide (length tables_to_join = 1)) as [Hlen|Hlen].
  - destruct tables_to_join as [|t [|? ?]]; try done.
    destruct (Hone t) as [H1 H2]. split; [|done].
    rewrite H1. split; [done|]. by intros [? _].
  - specialize (Hmany tables_to_join Hlen).
    destruct join_path as [[|step steps]|].
    + rewrite Hmany. split; [|done]. split; [auto|done].
    + destruct Hmany as [H1 H2]. split; [|done]. rewrite H1.
      split; [done|]. by intros [_ [|]].
    + rewrite Hmany. split; [|done]. split; [auto|done].
Qed.

Section Requests.

Variable self : DatabaseSchema.

Lemma connected_last start t :
  connected self start t → start = t ∨ ∃ u, adjacent self u t.
Proof.
  intros [->|(u & _ & Hadj)]%rtc_inv_r; eauto.
Qed.

End Requests.

(** X24.  What [find_join_path] does with requests the search was not
    written for: after the first table, the order of the requested tables
    and their repetition make no difference; and a requested table other
    than the first that holds no relationship and is referred to by none is
    never reached, so that the result is None. *)
Theorem unusual_requests (self : DatabaseSchema) (start : string) :
  (∀ (rest rest' : list string) (fuel : nat),
     rest ≠ [] → rest' ≠ [] →
     (∀ t, t ∈ rest ↔ t ∈ rest') →
     find_join_path fuel self (start :: rest)
       = find_join_path fuel self (start :: rest')) ∧
  (∀ (rest : list string) (t : string),
     t ∈ rest → t ≠ start →
     rels self t = [] →
     (∀ k lc rc, (t, lc, rc) ∉ rels self k) →
     ∃ fuel, ∀ m, fuel ≤ m →
       find_join_path m self (start :: rest) = Some None).
Proof.
  split.
  - intros rest rest' fuel Hne Hne' Hsame.
    destruct rest as [|a rest]; [done|]. destruct rest' as [|b rest']; [done|].
    simpl. unfold bfs_init. f_equal. f_equal. apply set_eq. intros t.
    rewrite !elem_of_list_to_set. apply Hsame.
  - intros rest t Ht Hstart Hnone Hunref.
    destruct rest as [|second rest]; [by apply elem_of_nil in Ht|].
    destruct (bfs_init_terminates self start (second :: rest))
      as (fuel & r & Hrun).
    assert (r = None) as ->.
    { eapply (bfs_loop_unreachable self fuel start t); [| | |exact Hrun].
      - intros [?|(u & [(lc & rc & Hin)|(lc & rc & Hin)])]%connected_last;
          [done|by eapply Hunref|].
        rewrite Hnone in Hin. by apply elem_of_nil in Hin.
      - intros n p [= -> ->]%list_elem_of_singleton. apply rtc_refl.
      - unfold bfs_init. cbn [targets]. by apply elem_of_list_to_set. }
    exists fuel. intros m Hm. simpl. by eapply bfs_loop_mono.
Qed.

(** X24 at a request for a table the model does not know. *)
Lemma unusual_requests_witness :
  ∃ fuel, ∀ m, fuel ≤ m →
    find_join_path m orders_customers ["Orders"; "Invoices"] = Some None.
Proof.
  apply (proj2 (unusual_requests orders_customers "Orders") ["Invoices"] "Invoices").
  - left.
  - discriminate.
  - reflexivity.
  - intros k lc rc Hin. unfold rels in Hin. simpl in Hin.
    destruct (decide (k = "Orders")) as [->|Hne].
    + vm_compute in Hin. apply list_elem_of_singleton in Hin. discriminate.
    + rewrite lookup_singleton_ne in Hin by done. by apply elem_of_nil in Hin.
Defined.

(** X23 at the empty plan of a repeated table. *)
Lemma draft_is_query_or_placeholder_witness :
  Py.startswith (sql_preview SQLITE ["T"; "T"] (Some []) []) "--" = true.
Proof.
  apply (proj1 (draft_is_query_or_placeholder SQLITE ["T"; "T"] (Some []) [])).
  split; [discriminate|by right].
Defined.
